(** * tlcontext: typed ambient contexts on a process-wide and a per-thread slot

    A shallow embedding of [tlcontext.hpp]: the two slot templates
    [global_top_ptr<T>] and [local_top_ptr<T>], the RAII class
    [impl::guard<T, TLocal>] and the three accessors of [helper<T>].

    - A payload type [T] is a key of type [tid]; a thread is a key of type
      [thread]. The variable template [global_top_ptr<T>] is one pointer per
      [T]; [thread_local local_top_ptr<T>] is one pointer per thread and [T].
    - A pointer [T*] is an [option addr]: [None] is [nullptr], [Some a] is the
      address of the [_data] member of the guard object stored at [a].
    - Guard objects live in an object store [objects]; the constructor of a
      guard is run on the storage the caller provides ([this]).
    - Operations run in a state monad whose result records how the call ended:
      normally, by a propagating exception, by [std::abort] after the
      diagnostic, or with undefined behaviour. *)

From stdpp Require Import base option list gmap strings pretty.

#[local] Set Warnings "-clear-no-such-hyp".

(** ** Results of a call *)

Inductive result (E A : Type) : Type :=
| Normal (a : A)           (* the call returned [a] *)
| Throws (e : E)           (* an exception left the call *)
| Aborted (diag : string)  (* [std::abort] after printing [diag] on stdout *)
| Undefined.               (* undefined behaviour *)
Arguments Normal {E A} a.
Arguments Throws {E A} e.
Arguments Aborted {E A} diag.
Arguments Undefined {E A}.

(** Addresses of guard objects. *)
Abbreviation addr := positive.

Module tlcontext.

Section model.

Context {tid : Type} `{Countable tid}.        (* payload types [T] *)
Context {thread : Type} `{Countable thread}.  (* execution threads *)
Context {payload : Type}.                     (* payload values, all types *)
Context {args : Type}.                        (* constructor arguments [xs...] *)
Context {exn : Type}.                         (* exceptions *)

(** [T{static_cast<Ts&&>(xs)...}]: the caller-supplied payload constructor;
    [inl e] when it throws [e]. *)
Variable construct : tid → args → exn + payload.

(** ** Slots and guard objects *)

(** [class guard { T _data; T* _prev; }] *)
Record guard : Type := Guard {
  _data : payload;
  _prev : option addr
}.

Record state : Type := State {
  global_top_ptr : gmap tid addr;            (* [global_top_ptr<T>], absent = nullptr *)
  local_top_ptr : gmap (thread * tid) addr;  (* [local_top_ptr<T>] of each thread *)
  objects : gmap addr guard                  (* the guard objects alive *)
}.

(** [constinit ... {nullptr}]: every slot starts empty, no guard is alive. *)
Definition initial : state := State ∅ ∅ ∅.

(** One of the pointer variables. *)
Inductive slot : Type :=
| GlobalSlot (T : tid)
| LocalSlot (th : thread) (T : tid).

#[export] Instance slot_eq_dec : EqDecision slot.
Proof. solve_decision. Defined.

(** [(TLocal ? local_top_ptr<T> : global_top_ptr<T>)], evaluated on thread [th]. *)
Definition ptr_ref (TLocal : bool) (th : thread) (T : tid) : slot :=
  if TLocal then LocalSlot th T else GlobalSlot T.

Definition slot_read (k : slot) (s : state) : option addr :=
  match k with
  | GlobalSlot T => global_top_ptr s !! T
  | LocalSlot th T => local_top_ptr s !! (th, T)
  end.

Definition slot_write (k : slot) (p : option addr) (s : state) : state :=
  match k with
  | GlobalSlot T =>
      State (partial_alter (λ _, p) T (global_top_ptr s)) (local_top_ptr s) (objects s)
  | LocalSlot th T =>
      State (global_top_ptr s) (partial_alter (λ _, p) (th, T) (local_top_ptr s)) (objects s)
  end.

(** The payload a reference [T&] denotes. *)
Definition load (s : state) (a : addr) : option payload :=
  _data <$> objects s !! a.

(** ** The monad of calls *)

Definition M (A : Type) : Type := state → result exn A * state.

Definition ret {A} (a : A) : M A := λ s, (Normal a, s).

Definition bind {A B} (m : M A) (f : A → M B) : M B :=
  λ s, match m s with
       | (Normal a, s') => f a s'
       | (Throws e, s') => (Throws e, s')
       | (Aborted d, s') => (Aborted d, s')
       | (Undefined, s') => (Undefined, s')
       end.

#[export] Instance M_ret : MRet M := @ret.
#[export] Instance M_bind : MBind M := λ A B f m, bind m f.

Definition throw {A} (e : exn) : M A := λ s, (Throws e, s).
Definition abort {A} (diag : string) : M A := λ s, (Aborted diag, s).
Definition undefined {A} : M A := λ s, (Undefined, s).

Definition read (k : slot) : M (option addr) := λ s, (Normal (slot_read k s), s).
Definition write (k : slot) (p : option addr) : M unit :=
  λ s, (Normal tt, slot_write k p s).

(** The member initialiser [_data{xs...}]. *)
Definition construct_data (T : tid) (xs : args) : M payload :=
  match construct T xs with
  | inl e => throw e
  | inr d => ret d
  end.

(** The members of the object at [this]. *)
Definition member (this : addr) : M guard :=
  λ s, match objects s !! this with
       | Some g => (Normal g, s)
       | None => (Undefined, s)
       end.

(** The guard at [this] is fully constructed / its lifetime ends. *)
Definition put_object (this : addr) (g : guard) (s : state) : state :=
  State (global_top_ptr s) (local_top_ptr s) (<[this := g]> (objects s)).
Definition drop_object (this : addr) (s : state) : state :=
  State (global_top_ptr s) (local_top_ptr s) (delete this (objects s)).

Definition emplace (this : addr) (g : guard) : M unit :=
  λ s, (Normal tt, put_object this g s).
Definition release (this : addr) : M unit :=
  λ s, (Normal tt, drop_object this s).

(** ** [impl::abort_if] *)

Definition newline : string := String (Ascii.ascii_of_nat 10) EmptyString.

(** [std::printf("TLCONTEXT FATAL ERROR: '%s'\n", msg)] *)
Definition diagnostic (msg : string) : string :=
  "TLCONTEXT FATAL ERROR: '" +:+ msg +:+ "'" +:+ newline.

Definition abort_if (predicate : bool) (msg : string) : M unit :=
  if negb predicate then ret tt else abort (diagnostic msg).

(** ** [impl::guard<T, TLocal>] *)

(** The constructor, run on thread [th] for the object at [this]:
    [_data] is initialised first, then the body saves the slot in [_prev]
    and points the slot to [_data]. *)
Definition guard_ctor (TLocal : bool) (th : thread) (T : tid)
    (this : addr) (xs : args) : M unit :=
  d ← construct_data T xs;
  prev ← read (ptr_ref TLocal th T);
  emplace this (Guard d prev);;
  write (ptr_ref TLocal th T) (Some this).

(** The destructor: [(TLocal ? local_top_ptr<T> : global_top_ptr<T>) = _prev]. *)
Definition guard_dtor (TLocal : bool) (th : thread) (T : tid)
    (this : addr) : M unit :=
  g ← member this;
  write (ptr_ref TLocal th T) (_prev g);;
  release this.

(** ** [helper<T>]: the accessors *)

(** [*ptr] *)
Definition deref (ptr : option addr) : M addr :=
  match ptr with
  | Some a => ret a
  | None => undefined
  end.

Definition is_nullptr (ptr : option addr) : bool :=
  match ptr with Some _ => false | None => true end.

(** [#ifdef TLCONTEXT_DEBUG ... #endif] *)
Definition ifdef (TLCONTEXT_DEBUG : bool) (m : M unit) : M unit :=
  if TLCONTEXT_DEBUG then m else ret tt.

Definition get_local (TLCONTEXT_DEBUG : bool) (th : thread) (T : tid) : M addr :=
  ptr ← read (LocalSlot th T);
  ifdef TLCONTEXT_DEBUG
    (abort_if (is_nullptr ptr) "tried using inactive local context");;
  deref ptr.

Definition get_global (TLCONTEXT_DEBUG : bool) (T : tid) : M addr :=
  ptr ← read (GlobalSlot T);
  ifdef TLCONTEXT_DEBUG
    (abort_if (is_nullptr ptr) "tried using inactive global context");;
  deref ptr.

Definition get_top (TLCONTEXT_DEBUG : bool) (th : thread) (T : tid) : M addr :=
  local_ptr ← read (LocalSlot th T);
  match local_ptr with
  | Some a => ret a
  | None =>
      global_ptr ← read (GlobalSlot T);
      ifdef TLCONTEXT_DEBUG
        (abort_if (is_nullptr global_ptr) "no available context");;
      deref global_ptr
  end.

(** What a caller sees of an accessor call: the reference it returns
    together with the payload behind it, or the way the call ended. *)
Definition observe (m : M addr) (s : state) : result exn (addr * option payload) :=
  match m s with
  | (Normal a, s') => Normal (a, load s' a)
  | (Throws e, _) => Throws e
  | (Aborted diag, _) => Aborted diag
  | (Undefined, _) => Undefined
  end.

(** The slot [k] and the payload behind it are in [s'] as they are in [s]. *)
Definition untouched (k : slot) (s s' : state) : Prop :=
  slot_read k s' = slot_read k s ∧
  ∀ a, slot_read k s = Some a → load s' a = load s a.

(** ** Programs: sequences of guard constructions and destructions *)

Inductive event : Type :=
| Construct (TLocal : bool) (th : thread) (T : tid) (this : addr) (xs : args)
| Destroy (TLocal : bool) (th : thread) (T : tid) (this : addr).

Definition exec (e : event) : M unit :=
  match e with
  | Construct TLocal th T this xs => guard_ctor TLocal th T this xs
  | Destroy TLocal th T this => guard_dtor TLocal th T this
  end.

Definition event_type (e : event) : tid :=
  match e with Construct _ _ T _ _ | Destroy _ _ T _ => T end.

Definition event_slot (e : event) : slot :=
  match e with
  | Construct TLocal th T _ _ | Destroy TLocal th T _ => ptr_ref TLocal th T
  end.

Definition event_local (e : event) : bool :=
  match e with Construct TLocal _ _ _ _ | Destroy TLocal _ _ _ => TLocal end.

Definition event_thread (e : event) : thread :=
  match e with Construct _ th _ _ _ | Destroy _ th _ _ => th end.

Definition event_addr (e : event) : addr :=
  match e with Construct _ _ _ this _ | Destroy _ _ _ this => this end.

(** The events of all threads, in the order they happen. A constructor that
    throws leaves no guard behind and the program goes on in its handler;
    the run ends at an abort or at undefined behaviour. *)
Fixpoint run (tr : list event) (s : state) : option state :=
  match tr with
  | [] => Some s
  | e :: tr' =>
      match exec e s with
      | (Normal _, s') | (Throws _, s') => run tr' s'
      | (Aborted _, _) | (Undefined, _) => None
      end
  end.

(** ** The guards alive, as the program text determines them *)

(** [using local_guard = impl::guard<T, true>] and
    [using global_guard = impl::guard<T, false>]: the template argument
    [TLocal] of the two guard classes of [helper<T>]. *)
Definition local_guard : bool := true.
Definition global_guard : bool := false.

(** The stack a guard belongs to by its declaration, whatever pointer its
    constructor goes on to write: a [local_guard] is pushed on the
    thread-local stack of the thread that declares it, a [global_guard] of
    any thread is put on the process-wide one. *)
Definition declared (TLocal : bool) (th : thread) (T : tid) : slot :=
  match TLocal with
  | true => LocalSlot th T
  | false => GlobalSlot T
  end.

(** A guard that was constructed and is not yet destroyed, with the stack
    it was declared for. *)
Record live : Type := Live {
  live_slot : slot;
  live_addr : addr;
  live_data : payload
}.

(** The guards alive after an event; the most recently constructed first. *)
Definition track_event (e : event) (σ : list live) : list live :=
  match e with
  | Construct TLocal th T this xs =>
      match construct T xs with
      | inl _ => σ
      | inr d => Live (declared TLocal th T) this d :: σ
      end
  | Destroy _ _ _ this => filter (λ g, live_addr g ≠ this) σ
  end.

Fixpoint track (tr : list event) (σ : list live) : list live :=
  match tr with
  | [] => σ
  | e :: tr' => track tr' (track_event e σ)
  end.

(** The guards alive declared for one stack, innermost first. *)
Fixpoint stack_of (k : slot) (σ : list live) : list (addr * payload) :=
  match σ with
  | [] => []
  | g :: σ' =>
      if decide (live_slot g = k) then (live_addr g, live_data g) :: stack_of k σ'
      else stack_of k σ'
  end.

Definition addrs (σ : list live) : list addr := live_addr <$> σ.

(** The discipline of an event: a guard is constructed on storage that
    holds no live guard, and the guard destroyed is the most recently
    constructed one alive of its (type, scope). *)
Definition permitted (e : event) (σ : list live) : bool :=
  match e with
  | Construct _ _ _ this _ => bool_decide (this ∉ addrs σ)
  | Destroy TLocal th T this =>
      bool_decide (fst <$> head (stack_of (declared TLocal th T) σ) = Some this)
  end.

(** LIFO discipline of every slot along a sequence of events. *)
Fixpoint well_nested (tr : list event) (σ : list live) : bool :=
  match tr with
  | [] => true
  | e :: tr' => permitted e σ && well_nested tr' (track_event e σ)
  end.

(** No event of [body] destroys the guard at [this]. *)
Definition alive_through (this : addr) (body : list event) : Prop :=
  ∀ TLocal th T, Destroy TLocal th T this ∉ body.

(** Lexically nested guard scopes: [{ guard g(xs...); body } rest], and a
    declaration whose constructor throws, which opens no scope. *)
Inductive scoped : list event → Prop :=
| scoped_nil : scoped []
| scoped_guard TLocal th T this xs body rest :
    scoped body → scoped rest →
    scoped (Construct TLocal th T this xs :: body ++ Destroy TLocal th T this :: rest)
| scoped_throw TLocal th T this xs e rest :
    construct T xs = inl e → scoped rest →
    scoped (Construct TLocal th T this xs :: rest).

(** ** The intrusive stack behind a slot *)

(** Following [_prev] from the pointer [p] visits exactly the guards of
    [stk], in order, each holding its payload, and ends at [nullptr]. *)
Fixpoint linked (objs : gmap addr guard) (p : option addr)
    (stk : list (addr * payload)) : Prop :=
  match stk with
  | [] => p = None
  | (a, d) :: rest =>
      p = Some a ∧ ∃ prev, objs !! a = Some (Guard d prev) ∧ linked objs prev rest
  end.

(** The state agrees with the guards alive: the objects are those guards,
    at distinct addresses, and every slot heads the chain of its stack. *)
Record consistent (σ : list live) (s : state) : Prop := Consistent {
  consistent_nodup : NoDup (addrs σ);
  consistent_dom : ∀ a, a ∈ addrs σ ↔ is_Some (objects s !! a);
  consistent_linked : ∀ k, linked (objects s) (slot_read k s) (stack_of k σ)
}.

(** The guard an accessor of a slot is meant to see. *)
Definition innermost (k : slot) (σ : list live) : option (addr * payload) :=
  head (stack_of k σ).

(** The addresses met when following [_prev] from the pointer [p], for at
    most [fuel] guards; the walk stops at [nullptr] and at a dead object. *)
Fixpoint chain (fuel : nat) (objs : gmap addr guard) (p : option addr) : list addr :=
  match fuel, p with
  | S n, Some a =>
      a :: match objs !! a with
           | Some g => chain n objs (_prev g)
           | None => []
           end
  | _, _ => []
  end.

(** The accessor of the slot a guard of scope [TLocal] lives in:
    [get_local] for a local guard, [get_global] for a global one. *)
Definition get_own (TLCONTEXT_DEBUG TLocal : bool) (th : thread) (T : tid) : M addr :=
  if TLocal then get_local TLCONTEXT_DEBUG th T else get_global TLCONTEXT_DEBUG T.

End model.

End tlcontext.

Import tlcontext.

(** The line feed character, as [printf] writes it for [\n]. *)
Abbreviation LF := (String (Ascii.ascii_of_nat 10) EmptyString).

(** ** The demonstration program of [tlcontext.cpp] *)

Module Demo.

(** [int_ctx_data] holds an [int]; its constructor does not throw. A second
    payload type, [checked_ctx_data], rejects negative arguments. *)
Definition construct (T : string) (x : Z) : string + Z :=
  if bool_decide (T = "checked_ctx_data") && bool_decide (x < 0)%Z
  then inl "negative" else inr x.

Abbreviation demo_state := (@state string _ _ nat _ _ Z).
Abbreviation demo_event := (@event string nat Z).

(** [using int_ctx = tlcontext::helper<int_ctx_data>] *)
Definition int_ctx : string := "int_ctx_data".

(** The value an accessor call reads: the payload behind the reference it
    returns. *)
Definition value_of (m : demo_state → result string addr * demo_state)
    (s : demo_state) : option Z :=
  match m s with
  | (Normal a, s') => load s' a
  | _ => None
  end.

(** The guards of [main] and [f1], on thread [0], in the order of the
    program: [gg(1)], [gg(5)], [lg(10)], [lg(15)]. *)
Definition main_guards : list demo_event :=
  [ Construct false 0 int_ctx 1%positive 1%Z;
    Construct false 0 int_ctx 2%positive 5%Z;
    Construct true 0 int_ctx 3%positive 10%Z;
    Construct true 0 int_ctx 4%positive 15%Z;
    Destroy true 0 int_ctx 4%positive;
    Destroy true 0 int_ctx 3%positive;
    Destroy false 0 int_ctx 2%positive ].

(** [gg(1)] and [gg(5)] are alive; then also [lg(10)]. *)
Definition in_global_scope : list demo_event := take 2 main_guards.
Definition in_local_scope : list demo_event := take 3 main_guards.

Definition state_after (tr : list demo_event) : demo_state :=
  default initial (run construct tr initial).

(** [{ int_ctx::local_guard lg(15); f2(); }], the block of [f1]. *)
Definition f1_block : list demo_event :=
  [ Construct true 0 int_ctx 4%positive 15%Z; Destroy true 0 int_ctx 4%positive ].

(** The declaration [int_ctx::local_guard lg(10)] of [main]. *)
Definition lg10 : demo_event := Construct true 0 int_ctx 3%positive 10%Z.

(** A guard of another payload type, as [client] installs one. *)
Definition metrics_guard : demo_event :=
  Construct true 0 "metrics_ctx_data" 4%positive 0%Z.

(** A guard destroyed before the guard installed after it: [lg(10)] ends
    while [lg(15)] is alive. *)
Definition out_of_order : list demo_event :=
  [ Construct true 0 int_ctx 3%positive 10%Z;
    Construct true 0 int_ctx 4%positive 15%Z;
    Destroy true 0 int_ctx 3%positive ].

(** What the three accessors read after the first [n] events of [main]. *)
Definition main_reads (n : nat) : option (option Z * option Z * option Z) :=
  s ← run construct (take n main_guards) initial;
  Some (value_of (get_local true 0 int_ctx) s,
        value_of (get_global true int_ctx) s,
        value_of (get_top true 0 int_ctx) s).

End Demo.

(** * The program of [tlcontext.cpp]

    [tlcontext.cpp] defines [TLCONTEXT_DEBUG], so its accessors are the
    checked ones. Besides the slots and the guard objects, its functions
    act on the counter [metrics_guard::depth], on [std::cout], on the clock
    and on memory resources. What the standard library and the platform
    decide is a parameter: the readings of [steady_clock], the microseconds
    between two readings, the limits of [int], where an object with
    automatic storage is placed, how a [void*] is printed and whether an
    allocation succeeds. *)

Module program.

Section program.

Context {thread : Type} `{Countable thread}.
Context {time : Type}.      (* [clock_type::time_point] *)
Context {resource : Type}.  (* [std::pmr::memory_resource*] *)
Context {exn : Type}.       (* exceptions *)

(** The context data classes: [int_ctx_data], [metrics_ctx_data] and
    [pmr_context_data]. *)
Inductive ctx_data : Type :=
| int_ctx_data (value : Z)
| metrics_ctx_data (label : string) (tp : time)
| pmr_context_data (_mr : resource).

Definition value (d : ctx_data) : option Z :=
  match d with int_ctx_data v => Some v | _ => None end.
Definition label (d : ctx_data) : option string :=
  match d with metrics_ctx_data l _ => Some l | _ => None end.
Definition tp (d : ctx_data) : option time :=
  match d with metrics_ctx_data _ t => Some t | _ => None end.
Definition _mr (d : ctx_data) : option resource :=
  match d with pmr_context_data mr => Some mr | _ => None end.

(** [using int_ctx = tlcontext::helper<int_ctx_data>] and the like: the
    payload type of a helper. *)
Definition int_ctx : string := "int_ctx_data".
Definition metrics_ctx : string := "metrics_ctx_data".
Definition pmr_context : string := "pmr_context_data".

(** The [n]-th reading of [clock_type::now()] in the run of the program. *)
Variable steady_clock : nat → time.
(** [duration_cast<microseconds>(t - tp).count()] *)
Variable elapsed_us : time → time → Z.
(** [INT_MIN] and [INT_MAX]. *)
Variable INT_MIN INT_MAX : Z.
(** The address an object with automatic storage gets, given the guard
    objects alive. *)
Variable place : gmap addr (@guard ctx_data) → addr.
(** What [std::cout] writes for a [void*] pointer. *)
Variable show_pointer : resource → string.
(** Whether the [n]-th allocation of the run, made from the resource [mr],
    succeeds; [std::bad_alloc] is thrown when it does not. *)
Variable allocates : nat → resource → bool.
Variable bad_alloc : exn.
(** [std::pmr::new_delete_resource()] *)
Variable new_delete_resource : resource.

(** The payload of a guard is built from values: [int_ctx_data(int)] and
    the two aggregates do not throw. *)
Definition construct (T : string) (x : ctx_data) : exn + ctx_data := inr x.

Record world : Type := World {
  contexts : @state string _ _ thread _ _ ctx_data;  (* slots and guard objects *)
  depth : Z;          (* [metrics_guard::depth] *)
  cout : string;      (* the characters written to [std::cout] *)
  now_calls : nat;    (* the calls of [clock_type::now()] so far *)
  allocations : nat   (* the allocations so far *)
}.

(** [depth] is initialised to [0]; nothing was written, read or allocated. *)
Definition start : world := World initial 0 "" 0 0.

(** ** The monad of calls of the program *)

Definition W (A : Type) : Type := world → result exn A * world.

Definition wret {A} (a : A) : W A := λ w, (Normal a, w).

Definition wbind {A B} (m : W A) (f : A → W B) : W B :=
  λ w, match m w with
       | (Normal a, w') => f a w'
       | (Throws e, w') => (Throws e, w')
       | (Aborted d, w') => (Aborted d, w')
       | (Undefined, w') => (Undefined, w')
       end.

#[export] Instance W_ret : MRet W := @wret.
#[export] Instance W_bind : MBind W := λ A B f m, wbind m f.

(** A call into [tlcontext.hpp]. *)
Definition lift {A} (m : M (exn:=exn) A) : W A :=
  λ w, let (r, s') := m (contexts w) in
       (r, World s' (depth w) (cout w) (now_calls w) (allocations w)).

Definition wundefined {A} : W A := λ w, (Undefined, w).
Definition wabort {A} (diag : string) : W A := λ w, (Aborted diag, w).
Definition wthrow {A} (e : exn) : W A := λ w, (Throws e, w).

(** The end of a block: the destructor [dtor] of its variable runs when
    the block is left normally and when an exception leaves it; nothing
    runs after an abort or undefined behaviour. *)
Definition at_scope_exit {A} (dtor : W unit) (block : W A) : W A :=
  λ w, match block w with
       | (Normal a, w') => (dtor;; mret a) w'
       | (Throws e, w') => (dtor;; wthrow e) w'
       | (Aborted d, w') => (Aborted d, w')
       | (Undefined, w') => (Undefined, w')
       end.

(** The world [w] with the slots and guard objects [s]. *)
Definition with_contexts (s : @state string _ _ thread _ _ ctx_data) (w : world) : world :=
  World s (depth w) (cout w) (now_calls w) (allocations w).

(** A result that runs the destructors of the blocks it leaves. *)
Definition unwinds {A} (r : result exn A) : bool :=
  match r with Normal _ | Throws _ => true | Aborted _ | Undefined => false end.

(** [std::cout << text] *)
Definition print (text : string) : W unit :=
  λ w, (Normal tt, World (contexts w) (depth w) (cout w +:+ text)
                         (now_calls w) (allocations w)).

(** [clock_type::now()] *)
Definition now : W time :=
  λ w, (Normal (steady_clock (now_calls w)),
        World (contexts w) (depth w) (cout w) (S (now_calls w)) (allocations w)).

(** [assert(expr)], [NDEBUG] not defined: a failed assertion aborts; its
    diagnostic names the expression. *)
Definition assert (cond : bool) (expr : string) : W unit :=
  if cond then mret tt else wabort ("Assertion `" +:+ expr +:+ "' failed.").

(** A member of the context data behind a reference. *)
Definition member_of {A} (field : ctx_data → option A) (ref : addr) : W A :=
  λ w, match load (contexts w) ref ≫= field with
       | Some x => (Normal x, w)
       | None => (Undefined, w)
       end.

(** ** Arithmetic on [int] *)

(** The result of an [int] operation; overflow is undefined behaviour. *)
Definition int_result (x : Z) : W Z :=
  if bool_decide (INT_MIN ≤ x ≤ INT_MAX)%Z then mret x else wundefined.

Definition set_depth (x : Z) : W unit :=
  λ w, (Normal tt, World (contexts w) x (cout w) (now_calls w) (allocations w)).
Definition get_depth : W Z := λ w, (Normal (depth w), w).

(** [++depth] and [--depth] *)
Definition incr_depth : W unit := d ← get_depth; x ← int_result (d + 1); set_depth x.
Definition decr_depth : W unit := d ← get_depth; x ← int_result (d - 1); set_depth x.

(** [std::string(count, '-')] *)
Definition indentation (count : Z) : string :=
  String.concat "" (replicate (Z.to_nat count) "-").

(** [std::string(count, '-')] with an [int] count: a negative count becomes
    a size beyond [max_size()], and the [std::length_error] thrown then
    ends the program when it leaves a destructor. *)
Definition dashes (count : Z) : W string :=
  if bool_decide (0 ≤ count)%Z then mret (indentation count) else wabort "".

(** ** Guards with automatic storage *)

(** [{ helper<T>::local_guard g(x); block }] and the same with a
    [global_guard], on thread [th]. *)
Definition with_guard {A} (TLocal : bool) (th : thread) (T : string)
    (x : ctx_data) (block : W A) : W A :=
  λ w, let this := place (objects (contexts w)) in
       (lift (guard_ctor construct TLocal th T this x);;
        at_scope_exit (lift (guard_dtor TLocal th T this)) block) w.

(** What [helper<T>::get_local().value] and the like read. *)
Definition local_value (th : thread) : W Z :=
  ref ← lift (get_local true th int_ctx); member_of value ref.
Definition global_value : W Z :=
  ref ← lift (get_global true int_ctx); member_of value ref.
Definition top_value (th : thread) : W Z :=
  ref ← lift (get_top true th int_ctx); member_of value ref.

(** ** [f0], [f1], [f2] *)

Definition f0 (th : thread) : W unit :=
  v ← global_value; assert (v =? 5)%Z "int_ctx::get_global().value == 5";;
  v ← top_value th; assert (v =? 5)%Z "int_ctx::get_top().value == 5".

Definition f2 (th : thread) : W unit :=
  v ← local_value th; assert (v =? 15)%Z "int_ctx::get_local().value == 15";;
  v ← top_value th; assert (v =? 15)%Z "int_ctx::get_top().value == 15".

Definition f1 (th : thread) : W unit :=
  v ← local_value th; assert (v =? 10)%Z "int_ctx::get_local().value == 10";;
  v ← top_value th; assert (v =? 10)%Z "int_ctx::get_top().value == 10";;
  with_guard true th int_ctx (int_ctx_data 15)
    (v ← local_value th; assert (v =? 15)%Z "int_ctx::get_local().value == 15";;
     v ← top_value th; assert (v =? 15)%Z "int_ctx::get_top().value == 15";;
     f2 th;;
     v ← local_value th; assert (v =? 15)%Z "int_ctx::get_local().value == 15";;
     v ← top_value th; assert (v =? 15)%Z "int_ctx::get_top().value == 15");;
  v ← local_value th; assert (v =? 10)%Z "int_ctx::get_local().value == 10";;
  v ← top_value th; assert (v =? 10)%Z "int_ctx::get_top().value == 10".

(** ** [metrics_guard] *)

(** The constructor: the member [guard(label, clock_type::now())], then
    [++depth]. *)
Definition metrics_guard_ctor (th : thread) (this : addr) (l : string) : W unit :=
  t ← now;
  lift (guard_ctor construct true th metrics_ctx this (metrics_ctx_data l t));;
  incr_depth.

(** The line [~metrics_guard] writes. *)
Definition took (indent l : string) (us : Z) : string :=
  indent +:+ " " +:+ l +:+ " took " +:+ pretty us +:+ "us" +:+ newline.

(** The destructor: its body, then the destructor of the member [guard]. *)
Definition metrics_guard_dtor (th : thread) (this : addr) : W unit :=
  top ← lift (get_top true th metrics_ctx);
  t ← now;
  t0 ← member_of tp top;
  let us := elapsed_us t t0 in
  d ← get_depth;
  count ← int_result (d * 4);
  indent ← dashes count;
  l ← member_of label top;
  print (took indent l us);;
  decr_depth;;
  lift (guard_dtor true th metrics_ctx this).

(** [{ metrics_guard mg{l}; block }] *)
Definition with_metrics_guard {A} (th : thread) (l : string) (block : W A) : W A :=
  λ w, let this := place (objects (contexts w)) in
       (metrics_guard_ctor th this l;;
        at_scope_exit (metrics_guard_dtor th this) block) w.

(** ** [simulator] and [client] *)

Definition step0 : W unit := mret tt.
Definition step1a : W unit := mret tt.
Definition step1b : W unit := mret tt.
Definition step2 : W unit := mret tt.

Definition step1 (th : thread) : W unit :=
  with_metrics_guard th "step1a" step1a;;
  with_metrics_guard th "step1b" step1b.

Definition client (th : thread) : W unit :=
  with_metrics_guard th "client"
    (with_metrics_guard th "step0" step0;;
     with_metrics_guard th "step1" (step1 th);;
     with_metrics_guard th "step2" step2).

(** The line of a [metrics_guard] with label [l] at the nesting [level]
    above the depth [d0], constructed at the reading [from] and destroyed
    at the reading [to] after the [c0] readings made before. *)
Definition line (d0 : Z) (c0 : nat) (level : Z) (l : string) (from to : nat) : string :=
  took (indentation ((d0 + level) * 4)) l
       (elapsed_us (steady_clock (c0 + to)) (steady_clock (c0 + from))).

(** [block] returns normally and leaves the slots, the guard objects and
    [depth] as they are; started at depth [d] after [c] readings of the
    clock it reads the clock [n] more times and writes [out d c]; it needs
    room for [h] more levels of [depth]. *)
Definition behaves (h : Z) (n : nat) (out : Z → nat → string) (block : W unit) : Prop :=
  ∀ w, (0 ≤ depth w)%Z → ((depth w + h) * 4 ≤ INT_MAX)%Z →
    block w = (Normal tt,
               World (contexts w) (depth w) (cout w +:+ out (depth w) (now_calls w))
                     (now_calls w + n) (allocations w)).

(** ** [fpa1] and [fpa0] *)

(** An allocation from the resource [mr]. *)
Definition allocate (mr : resource) : W unit :=
  λ w, let w' := World (contexts w) (depth w) (cout w) (now_calls w)
                       (S (allocations w)) in
       if allocates (allocations w) mr then (Normal tt, w') else (Throws bad_alloc, w').

(** [std::pmr::vector<int> v(elements, mr)] *)
Definition pmr_vector (elements : list Z) (mr : resource) : W (list Z) :=
  allocate mr;; mret elements.

(** [for(int x : v) body] *)
Fixpoint for_each (v : list Z) (body : Z → W unit) : W unit :=
  match v with
  | [] => mret tt
  | x :: v' => body x;; for_each v' body
  end.

(** The first line [fpa1] writes. *)
Definition using_resource (mr : resource) : string :=
  "using memory resource " +:+ show_pointer mr +:+ newline.

Definition fpa1 (th : thread) : W unit :=
  top ← lift (get_top true th pmr_context);
  mr ← member_of _mr top;
  print (using_resource mr);;
  v ← pmr_vector [0; 1; 2; 3; 4; 5]%Z mr;
  for_each v (λ x, print (pretty x));;
  print newline.

(** [mbr] is the address of the [monotonic_buffer_resource] of the block. *)
Definition fpa0 (th : thread) (mbr : resource) : W unit :=
  with_guard false th pmr_context (pmr_context_data new_delete_resource)
    (fpa1 th;;
     with_guard true th pmr_context (pmr_context_data mbr) (fpa1 th)).

(** ** [main] *)

Definition main (th : thread) (mbr : resource) : W Z :=
  with_guard false th int_ctx (int_ctx_data 1)
    (v ← global_value; assert (v =? 1)%Z "int_ctx::get_global().value == 1";;
     v ← top_value th; assert (v =? 1)%Z "int_ctx::get_top().value == 1";;
     with_guard false th int_ctx (int_ctx_data 5)
       (v ← global_value; assert (v =? 5)%Z "int_ctx::get_global().value == 5";;
        v ← top_value th; assert (v =? 5)%Z "int_ctx::get_top().value == 5";;
        f0 th;;
        with_guard true th int_ctx (int_ctx_data 10)
          (v ← local_value th; assert (v =? 10)%Z "int_ctx::get_local().value == 10";;
           v ← top_value th; assert (v =? 10)%Z "int_ctx::get_top().value == 10";;
           f1 th;;
           v ← local_value th; assert (v =? 10)%Z "int_ctx::get_local().value == 10";;
           v ← top_value th; assert (v =? 10)%Z "int_ctx::get_top().value == 10");;
        v ← global_value; assert (v =? 5)%Z "int_ctx::get_global().value == 5";;
        v ← top_value th; assert (v =? 5)%Z "int_ctx::get_top().value == 5");;
     v ← global_value; assert (v =? 1)%Z "int_ctx::get_global().value == 1";;
     v ← top_value th; assert (v =? 1)%Z "int_ctx::get_top().value == 1";;
     client th;;
     fpa0 th mbr;;
     mret 0%Z).

End program.

End program.

(** ** One platform for the program

    A 32-bit [int], a clock that advances seven ticks of one microsecond
    between two readings, automatic storage at the first address that
    holds no guard, resources named by strings, allocations that succeed. *)

Module platform.

Import program.

Definition steady_clock (n : nat) : Z := 7 * Z.of_nat n.
Definition elapsed_us (t t0 : Z) : Z := t - t0.
Definition INT_MIN : Z := -2147483648.
Definition INT_MAX : Z := 2147483647.
Definition place (objs : gmap addr (@guard (@ctx_data Z string))) : addr :=
  fresh (dom objs).
Definition show_pointer (mr : string) : string := mr.
Definition allocates (n : nat) (mr : string) : bool := true.
Definition bad_alloc : string := "std::bad_alloc".
Definition new_delete_resource : string := "0x5581".
Definition mbr : string := "0x7ffd".

(** The world at the start of the program, on this platform. *)
Definition start : @world nat _ _ Z string := program.start.

End platform.

(** * Properties *)

Section properties.

Context {tid : Type} `{Countable tid}.
Context {thread : Type} `{Countable thread}.
Context {payload args exn : Type}.
Variable construct : tid → args → exn + payload.

Local Abbreviation state := (@state tid _ _ thread _ _ payload).
Local Abbreviation slot := (@slot tid thread).
Local Abbreviation live := (@live tid thread payload).
Local Abbreviation event := (@event tid thread args).
Local Abbreviation guard_ctor := (guard_ctor construct).
Local Abbreviation guard_dtor := (guard_dtor (exn:=exn)).
Local Abbreviation get_local := (get_local (exn:=exn)).
Local Abbreviation get_global := (get_global (exn:=exn)).
Local Abbreviation get_top := (get_top (exn:=exn)).
Local Abbreviation observe := (observe (exn:=exn)).
Local Abbreviation get_own := (get_own (exn:=exn)).
Local Abbreviation exec := (exec construct).
Local Abbreviation run := (run construct).
Local Abbreviation track_event := (track_event construct).
Local Abbreviation track := (track construct).
Local Abbreviation well_nested := (well_nested construct).
Local Abbreviation scoped := (scoped construct).

Implicit Types (s : state) (k : slot) (σ : list live) (tr : list event)
  (a this : addr) (d : payload) (p : option addr) (T U : tid) (th : thread).

(** ** Slots *)

Lemma slot_read_write k p s : slot_read k (slot_write k p s) = p.
Proof. destruct k; simpl; by rewrite lookup_partial_alter_eq. Qed.

Lemma slot_read_write_ne k k' p s :
  k ≠ k' → slot_read k' (slot_write k p s) = slot_read k' s.
Proof.
  destruct k, k'; simpl; intros Hk; try done;
    apply lookup_partial_alter_ne; congruence.
Qed.

(** The pointer the constructor and the destructor of a guard select is
    the one of the stack the guard is declared for. *)
Lemma ptr_ref_declared TLocal th T : ptr_ref TLocal th T = declared TLocal th T.
Proof. by destruct TLocal. Qed.

(** ** What the constructor and the destructor do *)

Lemma guard_ctor_normal TLocal th T this xs d s :
  construct T xs = inr d →
  guard_ctor TLocal th T this xs s =
    (Normal tt, slot_write (ptr_ref TLocal th T) (Some this)
                  (put_object this (Guard d (slot_read (ptr_ref TLocal th T) s)) s)).
Proof.
  intros Hd. unfold tlcontext.guard_ctor, construct_data, mbind, M_bind, bind.
  by rewrite Hd.
Qed.

Lemma guard_ctor_throws TLocal th T this xs e s :
  construct T xs = inl e → guard_ctor TLocal th T this xs s = (Throws e, s).
Proof.
  intros He. unfold tlcontext.guard_ctor, construct_data, mbind, M_bind, bind.
  by rewrite He.
Qed.

Lemma guard_dtor_live TLocal th T this g s :
  objects s !! this = Some g →
  guard_dtor TLocal th T this s =
    (Normal tt, drop_object this (slot_write (ptr_ref TLocal th T) (_prev g) s)).
Proof.
  intros Hg. unfold tlcontext.guard_dtor, member, mbind, M_bind, bind.
  by rewrite Hg.
Qed.

Lemma guard_dtor_dead TLocal th T this s :
  objects s !! this = None → guard_dtor TLocal th T this s = (Undefined, s).
Proof.
  intros Hg. unfold tlcontext.guard_dtor, member, mbind, M_bind, bind.
  by rewrite Hg.
Qed.

Lemma objects_slot_write k p s : objects (slot_write k p s) = objects s.
Proof. by destruct k. Qed.

Lemma slot_read_put_object k this g s :
  slot_read k (put_object this g s) = slot_read k s.
Proof. by destruct k. Qed.

Lemma slot_read_drop_object k this s :
  slot_read k (drop_object this s) = slot_read k s.
Proof. by destruct k. Qed.

(** ** The guards alive *)

Lemma stack_of_addrs k σ a d : (a, d) ∈ stack_of k σ → a ∈ addrs σ.
Proof.
  induction σ as [|g σ IH]; simpl; [by intros ?%elem_of_nil|].
  case_decide; rewrite ?elem_of_cons; naive_solver.
Qed.

Lemma stack_of_elem k σ a d :
  (a, d) ∈ stack_of k σ ↔ Live k a d ∈ σ.
Proof.
  induction σ as [|[k' a' d'] σ IH]; simpl.
  - by rewrite !elem_of_nil.
  - case_decide; simplify_eq/=; rewrite ?elem_of_cons, IH; naive_solver.
Qed.

Lemma live_addr_unique σ g g' :
  NoDup (addrs σ) → g ∈ σ → g' ∈ σ → live_addr g = live_addr g' → g = g'.
Proof.
  unfold addrs. induction σ as [|g0 σ IH]; simpl; [by intros _ ?%elem_of_nil|].
  rewrite NoDup_cons, !elem_of_cons. intros [Hnot Hnd] [->|Hg] [->|Hg'] Heq; try done.
  - destruct Hnot. rewrite Heq. by apply list_elem_of_fmap_2.
  - destruct Hnot. rewrite <-Heq. by apply list_elem_of_fmap_2.
  - by apply IH.
Qed.

Lemma stack_of_slot_unique σ k k' a d d' :
  NoDup (addrs σ) → (a, d) ∈ stack_of k σ → (a, d') ∈ stack_of k' σ → k = k'.
Proof.
  rewrite !stack_of_elem. intros Hnd Hg Hg'.
  by pose proof (live_addr_unique _ _ _ Hnd Hg Hg' eq_refl) as [= -> _].
Qed.

Lemma stack_of_nodup k σ : NoDup (addrs σ) → NoDup (stack_of k σ).*1.
Proof.
  unfold addrs. induction σ as [|g σ IH]; simpl; [constructor|].
  rewrite NoDup_cons. intros [Hnot Hnd]. case_decide; simpl; [|by auto].
  apply NoDup_cons. split; [|by auto].
  intros ([a d] & Ha & Hin)%list_elem_of_fmap_1. simpl in Ha. subst a.
  by apply Hnot, (stack_of_addrs k σ _ d).
Qed.

Lemma addrs_retire this σ a :
  a ∈ addrs (filter (λ g, live_addr g ≠ this) σ) ↔ a ∈ addrs σ ∧ a ≠ this.
Proof.
  unfold addrs. rewrite !list_elem_of_fmap. split.
  - intros (g & -> & [Hne Hg]%list_elem_of_filter). eauto.
  - intros [(g & -> & Hg) Hne]. exists g. by rewrite list_elem_of_filter.
Qed.

Lemma nodup_retire this σ :
  NoDup (addrs σ) → NoDup (addrs (filter (λ g, live_addr g ≠ this) σ)).
Proof.
  unfold addrs. induction σ as [|g σ IH]; simpl; [done|].
  rewrite NoDup_cons. intros [Hnot Hnd]. rewrite filter_cons.
  case_decide; simpl; [|by auto]. apply NoDup_cons. split; [|by auto].
  intros [Hin _]%addrs_retire. done.
Qed.

Lemma retire_absent this σ :
  this ∉ addrs σ → filter (λ g, live_addr g ≠ this) σ = σ.
Proof.
  unfold addrs. induction σ as [|g σ IH]; simpl; [done|].
  rewrite not_elem_of_cons. intros [Hne Hnot]. rewrite filter_cons.
  case_decide; [by rewrite IH | congruence].
Qed.

(** Destroying the innermost guard of a slot pops that slot's stack and
    leaves the stacks of the other slots as they are. *)
Lemma stack_of_retire k this σ :
  NoDup (addrs σ) →
  fst <$> head (stack_of k σ) = Some this →
  stack_of k (filter (λ g, live_addr g ≠ this) σ) = tail (stack_of k σ) ∧
  ∀ k', k' ≠ k →
    stack_of k' (filter (λ g, live_addr g ≠ this) σ) = stack_of k' σ.
Proof.
  unfold addrs. induction σ as [|[k0 a0 d0] σ IH]; simpl; [done|].
  rewrite NoDup_cons. intros [Hnot Hnd] Hhead. rewrite filter_cons. simpl.
  destruct (decide (a0 = this)) as [->|Hne].
  - rewrite decide_False by (by intros ?).
    rewrite (retire_absent this σ Hnot).
    destruct (decide (k0 = k)) as [->|Hk].
    + split; [done|]. intros k' Hk'. by rewrite decide_False.
    + destruct (stack_of k σ) as [|[a d] stk] eqn:Hstk; simplify_eq/=.
      destruct Hnot. apply (stack_of_addrs k σ this d). rewrite Hstk. left.
  - rewrite decide_True by done. simpl.
    destruct (decide (k0 = k)) as [->|Hk]; [by simplify_eq/=|].
    destruct (IH Hnd Hhead) as [IH1 IH2]. split; [done|].
    intros k' Hk'. case_decide; [f_equal|]; by apply IH2.
Qed.

(** ** The invariant *)

Lemma linked_frame (objs objs' : gmap addr (@guard payload)) p stk :
  (∀ a, a ∈ stk.*1 → objs' !! a = objs !! a) →
  linked objs p stk → linked objs' p stk.
Proof.
  revert p. induction stk as [|[a d] stk IH]; simpl; [done|].
  intros p Hsame (-> & prev & Ha & Hrest). split; [done|]. exists prev. split.
  - rewrite Hsame; [done | left].
  - apply IH; [|done]. intros a' Ha'. apply Hsame. by right.
Qed.

Lemma linked_head (objs : gmap addr (@guard payload)) p stk :
  linked objs p stk → p = fst <$> head stk.
Proof. destruct stk as [|[a d] stk]; simpl; [done | by intros [-> _]]. Qed.

Lemma linked_load (objs : gmap addr (@guard payload)) p a d stk :
  linked objs p ((a, d) :: stk) → _data <$> objs !! a = Some d.
Proof. simpl. intros (_ & prev & -> & _). done. Qed.

Lemma consistent_initial : consistent [] (initial : state).
Proof.
  split; simpl.
  - constructor.
  - intros a. rewrite lookup_empty, elem_of_nil. split; [done | by intros [? ?]].
  - intros [T|th T]; simpl; apply lookup_empty.
Qed.

Lemma consistent_fresh σ s this :
  consistent σ s → this ∉ addrs σ → objects s !! this = None.
Proof.
  intros Hc Hnot. apply eq_None_not_Some. by rewrite <-(consistent_dom _ _ Hc).
Qed.

Lemma consistent_construct σ s k this d :
  consistent σ s → this ∉ addrs σ →
  consistent (Live k this d :: σ)
    (slot_write k (Some this) (put_object this (Guard d (slot_read k s)) s)).
Proof.
  intros Hc Hnot. split.
  - simpl. apply NoDup_cons. split; [done | apply Hc].
  - intros a. rewrite objects_slot_write. simpl.
    rewrite elem_of_cons, lookup_insert_is_Some, (consistent_dom _ _ Hc).
    destruct (decide (this = a)); naive_solver.
  - assert (Hframe : ∀ k' a, a ∈ (stack_of k' σ).*1 →
        objects (slot_write k (Some this)
          (put_object this (Guard d (slot_read k s)) s)) !! a = objects s !! a).
    { intros k' a ([a' d'] & -> & Hin)%list_elem_of_fmap_1.
      rewrite objects_slot_write. simpl. apply lookup_insert_ne.
      intros <-. by apply Hnot, (stack_of_addrs k' σ _ d'). }
    intros k'. simpl. destruct (decide (k = k')) as [<-|Hk].
    + rewrite slot_read_write. simpl. split; [done|].
      exists (slot_read k s). split.
      * rewrite objects_slot_write. simpl. apply lookup_insert_eq.
      * eapply linked_frame; [apply Hframe | apply Hc].
    + rewrite slot_read_write_ne, slot_read_put_object by done.
      eapply linked_frame; [apply Hframe | apply Hc].
Qed.

Lemma consistent_destroy σ s k this :
  consistent σ s →
  fst <$> head (stack_of k σ) = Some this →
  ∃ g, objects s !! this = Some g ∧
       _prev g = fst <$> head (tail (stack_of k σ)) ∧
       consistent (filter (λ g, live_addr g ≠ this) σ)
         (drop_object this (slot_write k (_prev g) s)).
Proof.
  intros Hc Hhead.
  destruct (stack_of_retire k this σ (consistent_nodup _ _ Hc) Hhead)
    as [Hpop Hkeep].
  pose proof (consistent_linked _ _ Hc k) as Hk.
  pose proof (stack_of_nodup k σ (consistent_nodup _ _ Hc)) as Hnd.
  destruct (stack_of k σ) as [|[a d] stk] eqn:Hstk; [done|].
  injection Hhead as ->. simpl in Hpop.
  destruct Hk as (Hslot & prev & Hobj & Hrest).
  exists (Guard d prev). split; [done|]. split; [by apply linked_head in Hrest|].
  apply NoDup_cons in Hnd as [Hnot Hnd]. split.
  - by apply nodup_retire, Hc.
  - intros a. simpl. rewrite objects_slot_write, addrs_retire.
    rewrite lookup_delete_is_Some, (consistent_dom _ _ Hc). naive_solver.
  - intros k'. simpl. destruct (decide (k = k')) as [<-|Hne].
    + rewrite slot_read_drop_object, slot_read_write, Hpop.
      eapply linked_frame; [|done]. intros a Ha.
      rewrite objects_slot_write. apply lookup_delete_ne. by intros <-.
    + rewrite slot_read_drop_object, slot_read_write_ne, Hkeep by done.
      eapply linked_frame; [|apply Hc].
      intros x ([a' d'] & Hx & Hin)%list_elem_of_fmap_1. simpl in Hx. subst x.
      rewrite objects_slot_write. apply lookup_delete_ne. intros <-.
      apply Hne. apply (stack_of_slot_unique σ k k' this d d' (consistent_nodup _ _ Hc));
        [rewrite Hstk; left | done].
Qed.

(** Every permitted event runs, and keeps the state and the guards alive in
    agreement. *)
Lemma consistent_step e σ s :
  consistent σ s → permitted e σ = true →
  ∃ s', run [e] s = Some s' ∧ consistent (track_event e σ) s'.
Proof.
  intros Hc Hp. destruct e as [TLocal th T this xs|TLocal th T this]; simpl in *.
  - apply bool_decide_eq_true in Hp.
    destruct (construct T xs) as [e|d] eqn:Hd.
    + rewrite (guard_ctor_throws _ _ _ _ _ e) by done. eauto.
    + rewrite (guard_ctor_normal _ _ _ _ _ d), ptr_ref_declared by done.
      eexists. split; [done|]. by apply consistent_construct.
  - apply bool_decide_eq_true in Hp.
    destruct (consistent_destroy σ s _ this Hc Hp) as (g & Hg & _ & Hc').
    rewrite (guard_dtor_live _ _ _ _ g), ptr_ref_declared by done. eauto.
Qed.

Lemma run_cons e tr s : run (e :: tr) s = run [e] s ≫= run tr.
Proof. simpl. by destruct (exec e s) as [[]]. Qed.

Lemma run_app tr1 tr2 s : run (tr1 ++ tr2) s = run tr1 s ≫= run tr2.
Proof.
  revert s. induction tr1 as [|e tr1 IH]; intros s; [done|].
  rewrite <-app_comm_cons, run_cons, (run_cons e tr1).
  destruct (run [e] s) as [s'|]; simpl; [apply IH | done].
Qed.

Lemma track_app tr1 tr2 σ : track (tr1 ++ tr2) σ = track tr2 (track tr1 σ).
Proof. revert σ. induction tr1 as [|e tr1 IH]; intros σ; simpl; [done | apply IH]. Qed.

Lemma well_nested_app tr1 tr2 σ :
  well_nested (tr1 ++ tr2) σ = well_nested tr1 σ && well_nested tr2 (track tr1 σ).
Proof.
  revert σ. induction tr1 as [|e tr1 IH]; intros σ; simpl; [done|].
  by rewrite IH, andb_assoc.
Qed.

(** A program that keeps the discipline runs to its end, without undefined
    behaviour, and ends in a state that agrees with the guards alive. *)
Lemma consistent_run tr σ s :
  consistent σ s → well_nested tr σ = true →
  ∃ s', run tr s = Some s' ∧ consistent (track tr σ) s'.
Proof.
  revert σ s. induction tr as [|e tr IH]; intros σ s Hc Hwn; [by eauto|].
  simpl in Hwn. apply andb_true_iff in Hwn as [Hp Hwn].
  destruct (consistent_step e σ s Hc Hp) as (s1 & Hrun & Hc1).
  destruct (IH _ _ Hc1 Hwn) as (s' & Hrun' & Hc').
  exists s'. split; [|done]. by rewrite run_cons, Hrun.
Qed.

Lemma reachable tr :
  well_nested tr [] = true →
  ∃ s, run tr initial = Some s ∧ consistent (track tr []) s.
Proof. apply consistent_run, consistent_initial. Qed.

Lemma consistent_slot σ s k :
  consistent σ s → slot_read k s = fst <$> innermost k σ.
Proof. intros Hc. apply (linked_head (objects s)), Hc. Qed.

Lemma consistent_load σ s k a d :
  consistent σ s → innermost k σ = Some (a, d) → load s a = Some d.
Proof.
  intros Hc Hin. pose proof (consistent_linked _ _ Hc k) as Hk.
  unfold innermost in Hin. destruct (stack_of k σ) as [|[a' d'] stk]; [done|].
  injection Hin as -> ->. by apply linked_load in Hk.
Qed.

(** ** The accessors, by the contents of the slots *)

Lemma get_local_eval dbg th T s :
  get_local dbg th T s =
    match local_top_ptr s !! (th, T) with
    | Some a => (Normal a, s)
    | None =>
        if dbg then (Aborted (diagnostic "tried using inactive local context"), s)
        else (Undefined, s)
    end.
Proof.
  unfold tlcontext.get_local, mbind, M_bind, bind, read. simpl.
  by destruct (local_top_ptr s !! (th, T)), dbg.
Qed.

Lemma get_global_eval dbg T s :
  get_global dbg T s =
    match global_top_ptr s !! T with
    | Some a => (Normal a, s)
    | None =>
        if dbg then (Aborted (diagnostic "tried using inactive global context"), s)
        else (Undefined, s)
    end.
Proof.
  unfold tlcontext.get_global, mbind, M_bind, bind, read. simpl.
  by destruct (global_top_ptr s !! T), dbg.
Qed.

Lemma get_top_eval dbg th T s :
  get_top dbg th T s =
    match local_top_ptr s !! (th, T) with
    | Some a => (Normal a, s)
    | None =>
        match global_top_ptr s !! T with
        | Some a => (Normal a, s)
        | None =>
            if dbg then (Aborted (diagnostic "no available context"), s)
            else (Undefined, s)
        end
    end.
Proof.
  unfold tlcontext.get_top, mbind, M_bind, bind, read. simpl.
  destruct (local_top_ptr s !! (th, T)); [done|].
  by destruct (global_top_ptr s !! T), dbg.
Qed.

(** ** Resolution order of [get_top] *)

(** C1. After any program that keeps the discipline, [get_top] on thread
    [th] returns a reference to the payload of the innermost guard alive
    that was declared a [local_guard] of [T] on [th] when there is one, and
    otherwise a reference to the payload of the innermost guard alive that
    was declared a [global_guard] of [T], on whatever thread [th']; in
    both build modes. *)
Theorem get_top_local_then_global dbg tr th T :
  well_nested tr [] = true →
  ∃ s, run tr initial = Some s ∧
    (∀ a d, innermost (declared local_guard th T) (track tr []) = Some (a, d) →
       get_top dbg th T s = (Normal a, s) ∧ load s a = Some d) ∧
    (∀ th' a d, innermost (declared local_guard th T) (track tr []) = None →
       innermost (declared global_guard th' T) (track tr []) = Some (a, d) →
       get_top dbg th T s = (Normal a, s) ∧ load s a = Some d).
Proof.
  intros Hwn. destruct (reachable tr Hwn) as (s & Hrun & Hc).
  exists s. split; [done|].
  pose proof (consistent_slot _ _ (LocalSlot th T) Hc) as Hl.
  pose proof (consistent_slot _ _ (GlobalSlot T) Hc) as Hg.
  simpl in Hl, Hg. change (declared local_guard th T) with (LocalSlot th T). split.
  - intros a d Hin. rewrite get_top_eval, Hl, Hin. simpl.
    split; [done | by eapply consistent_load].
  - intros th' a d Hnone Hin.
    change (declared global_guard th' T) with (GlobalSlot T : slot) in Hin.
    rewrite get_top_eval, Hl, Hnone, Hg, Hin. simpl.
    split; [done | by eapply consistent_load].
Qed.

(** ** The slot invariant *)

(** C2. Every pointer is null initially. After any program that keeps the
    discipline, [local_top_ptr<T>] of a thread holds the address of the
    most recently constructed guard not yet destroyed among those declared
    a [local_guard] of [T] on that thread, and [global_top_ptr<T>] that
    among those declared a [global_guard] of [T]; the object there holds
    that guard's payload, and the pointer is null exactly when no such
    guard is alive. *)
Theorem slot_is_innermost_guard tr :
  well_nested tr [] = true →
  (∀ th T, local_top_ptr (initial : state) !! (th, T) = None ∧
           global_top_ptr (initial : state) !! T = None) ∧
  ∃ s, run tr initial = Some s ∧
    (∀ th T,
       let guards := stack_of (declared local_guard th T) (track tr []) in
       local_top_ptr s !! (th, T) = fst <$> head guards ∧
       (∀ a d, head guards = Some (a, d) → load s a = Some d) ∧
       (local_top_ptr s !! (th, T) = None ↔ guards = [])) ∧
    (∀ th T,
       let guards := stack_of (declared global_guard th T) (track tr []) in
       global_top_ptr s !! T = fst <$> head guards ∧
       (∀ a d, head guards = Some (a, d) → load s a = Some d) ∧
       (global_top_ptr s !! T = None ↔ guards = [])).
Proof.
  intros Hwn. split.
  { intros th T. split; apply lookup_empty. }
  destruct (reachable tr Hwn) as (s & Hrun & Hc).
  exists s. split; [done|].
  assert (Hall : ∀ k,
    slot_read k s = fst <$> head (stack_of k (track tr [])) ∧
    (∀ a d, head (stack_of k (track tr [])) = Some (a, d) → load s a = Some d) ∧
    (slot_read k s = None ↔ stack_of k (track tr []) = [])).
  { intros k. pose proof (consistent_slot _ _ k Hc) as Hk. split; [done|]. split.
    - intros a d Hin. by eapply consistent_load.
    - rewrite Hk. unfold innermost.
      destruct (stack_of k (track tr [])) as [|[a d] stk]; simpl; naive_solver. }
  split; intros th T.
  - apply (Hall (LocalSlot th T)).
  - apply (Hall (GlobalSlot T)).
Qed.

(** ** Failure of the payload constructor *)

(** C4. When the payload constructor throws, the guard constructor ends
    with that exception and the state it leaves is the state it started
    from: both slots of every type, the objects, hence every accessor's
    result; a program ending in such a declaration ends in the state
    before it. *)
Theorem guard_ctor_throw_leaves_state TLocal th T this xs e :
  construct T xs = inl e →
  (∀ s, guard_ctor TLocal th T this xs s = (Throws e, s)) ∧
  (∀ s r s' dbg th' U,
     guard_ctor TLocal th T this xs s = (r, s') →
     get_local dbg th' U s' = get_local dbg th' U s ∧
     get_global dbg U s' = get_global dbg U s ∧
     get_top dbg th' U s' = get_top dbg th' U s) ∧
  (∀ tr s, run (tr ++ [Construct TLocal th T this xs]) s = run tr s).
Proof.
  intros He. split; [|split].
  - intros s. by apply guard_ctor_throws.
  - intros s r s' dbg th' U. rewrite (guard_ctor_throws _ _ _ _ _ e) by done.
    by intros [= <- <-].
  - intros tr s. rewrite run_app. destruct (run tr s) as [s1|]; simpl; [|done].
    by rewrite (guard_ctor_throws _ _ _ _ _ e).
Qed.

(** ** Misuse in the checked build *)

(** C5. With [TLCONTEXT_DEBUG], after any program that keeps the
    discipline, an accessor ends in [std::abort] exactly when the guards it
    needs are missing, and what it has printed then is its own message in
    the format of [abort_if]: [get_local] when no guard declared a
    [local_guard] of [T] on the calling thread is alive, [get_global] when
    no guard declared a [global_guard] of [T] (on whatever thread [th']) is
    alive, [get_top] when neither is; otherwise the accessor returns a
    reference. The state is the same after the call in every case. *)
Theorem checked_accessor_aborts_iff_missing tr th th' T :
  well_nested tr [] = true →
  ∃ s, run tr initial = Some s ∧
    let local := stack_of (declared local_guard th T) (track tr []) in
    let global := stack_of (declared global_guard th' T) (track tr []) in
    (∀ diag, get_local true th T s = (Aborted diag, s) ↔
       local = [] ∧
       diag = "TLCONTEXT FATAL ERROR: 'tried using inactive local context'" +:+ LF) ∧
    (local ≠ [] → ∃ a, get_local true th T s = (Normal a, s)) ∧
    (∀ diag, get_global true T s = (Aborted diag, s) ↔
       global = [] ∧
       diag = "TLCONTEXT FATAL ERROR: 'tried using inactive global context'" +:+ LF) ∧
    (global ≠ [] → ∃ a, get_global true T s = (Normal a, s)) ∧
    (∀ diag, get_top true th T s = (Aborted diag, s) ↔
       (local = [] ∧ global = []) ∧
       diag = "TLCONTEXT FATAL ERROR: 'no available context'" +:+ LF) ∧
    (local ≠ [] ∨ global ≠ [] → ∃ a, get_top true th T s = (Normal a, s)).
Proof.
  intros Hwn. destruct (reachable tr Hwn) as (s & Hrun & Hc).
  exists s. split; [done|].
  pose proof (consistent_slot _ _ (LocalSlot th T) Hc) as Hl.
  pose proof (consistent_slot _ _ (GlobalSlot T) Hc) as Hg.
  unfold innermost in Hl, Hg. simpl in Hl, Hg.
  change (declared local_guard th T) with (LocalSlot th T).
  change (declared global_guard th' T) with (GlobalSlot T : slot).
  cbv zeta. rewrite get_local_eval, get_global_eval, get_top_eval, Hl, Hg.
  change (diagnostic "tried using inactive local context")
    with ("TLCONTEXT FATAL ERROR: 'tried using inactive local context'" +:+ LF).
  change (diagnostic "tried using inactive global context")
    with ("TLCONTEXT FATAL ERROR: 'tried using inactive global context'" +:+ LF).
  change (diagnostic "no available context")
    with ("TLCONTEXT FATAL ERROR: 'no available context'" +:+ LF).
  generalize ("TLCONTEXT FATAL ERROR: 'tried using inactive local context'" +:+ LF).
  generalize ("TLCONTEXT FATAL ERROR: 'tried using inactive global context'" +:+ LF).
  generalize ("TLCONTEXT FATAL ERROR: 'no available context'" +:+ LF).
  intros mt mg ml.
  destruct (stack_of (LocalSlot th T) (track tr [])) as [|[al dl] ls];
    destruct (stack_of (GlobalSlot T) (track tr [])) as [|[ag dg] gs];
    simpl; repeat apply conj; naive_solver.
Qed.

(** ** The global slot is not read under a local guard *)

(** C10. When the local slot of [T] on the calling thread points to a
    guard, [get_top] returns that reference whatever the global slots hold:
    replacing them, also by all-empty slots and in the checked build, gives
    the same result and no diagnostic. *)
Theorem get_top_ignores_global dbg th T a s :
  local_top_ptr s !! (th, T) = Some a →
  ∀ g, get_top dbg th T (State g (local_top_ptr s) (objects s))
         = (Normal a, State g (local_top_ptr s) (objects s)) ∧
       observe (get_top dbg th T) (State g (local_top_ptr s) (objects s))
         = observe (get_top dbg th T) s ∧
       observe (get_top dbg th T) s = Normal (a, load s a).
Proof.
  intros Hl g. unfold tlcontext.observe. rewrite !get_top_eval. simpl.
  by rewrite Hl.
Qed.

(** ** What one event leaves alone *)

Lemma exec_objects_frame e s r s' a :
  exec e s = (r, s') → a ≠ event_addr e → objects s' !! a = objects s !! a.
Proof.
  destruct e as [TLocal th T this xs|TLocal th T this]; simpl; intros Hex Hne.
  - destruct (construct T xs) as [e|d] eqn:Hd.
    + rewrite (guard_ctor_throws _ _ _ _ _ e) in Hex by done. by injection Hex as _ <-.
    + rewrite (guard_ctor_normal _ _ _ _ _ d) in Hex by done. injection Hex as _ <-.
      rewrite objects_slot_write. simpl. by apply lookup_insert_ne.
  - destruct (objects s !! this) as [g|] eqn:Hg.
    + rewrite (guard_dtor_live _ _ _ _ g) in Hex by done. injection Hex as _ <-.
      simpl. rewrite objects_slot_write. by apply lookup_delete_ne.
    + rewrite guard_dtor_dead in Hex by done. by injection Hex as _ <-.
Qed.

Lemma exec_slot_frame e s r s' k :
  exec e s = (r, s') → k ≠ event_slot e → slot_read k s' = slot_read k s.
Proof.
  destruct e as [TLocal th T this xs|TLocal th T this]; simpl; intros Hex Hne.
  - destruct (construct T xs) as [e|d] eqn:Hd.
    + rewrite (guard_ctor_throws _ _ _ _ _ e) in Hex by done. by injection Hex as _ <-.
    + rewrite (guard_ctor_normal _ _ _ _ _ d) in Hex by done. injection Hex as _ <-.
      by rewrite slot_read_write_ne, slot_read_put_object.
  - destruct (objects s !! this) as [g|] eqn:Hg.
    + rewrite (guard_dtor_live _ _ _ _ g) in Hex by done. injection Hex as _ <-.
      by rewrite slot_read_drop_object, slot_read_write_ne.
    + rewrite guard_dtor_dead in Hex by done. by injection Hex as _ <-.
Qed.

Lemma run_single e s s' :
  run [e] s = Some s' → ∃ r, exec e s = (r, s').
Proof.
  simpl. destruct (exec e s) as [[u|x|diag|] s1]; intros [=]; subst; eauto.
Qed.

(** ** Round trips *)

Lemma ctor_dtor_restores k this g s :
  objects s !! this = None →
  drop_object this
    (slot_write k (slot_read k s) (slot_write k (Some this) (put_object this g s))) = s.
Proof.
  intros Hfree. destruct s as [gl lo ob], k as [T|th T]; unfold drop_object; simpl in *;
    f_equal; rewrite ?partial_alter_partial_alter_eq;
    try apply partial_alter_self; by apply delete_insert_id.
Qed.

(** A live guard that no event destroys stays as it was constructed, while
    the program keeps the discipline. *)
Lemma guard_survives body σ s this g :
  consistent σ s → well_nested body σ = true → alive_through this body →
  objects s !! this = Some g →
  ∃ s', run body s = Some s' ∧ consistent (track body σ) s' ∧
        objects s' !! this = Some g.
Proof.
  revert σ s. induction body as [|e body IH]; intros σ s Hc Hwn Hal Hg; [by eauto|].
  simpl in Hwn. apply andb_true_iff in Hwn as [Hp Hwn].
  destruct (consistent_step e σ s Hc Hp) as (s1 & Hrun & Hc1).
  assert (Hne : this ≠ event_addr e).
  { destruct e as [TLocal th T a xs|TLocal th T a]; simpl in *; intros <-.
    - apply bool_decide_eq_true in Hp. apply Hp, (consistent_dom _ _ Hc). eauto.
    - apply (Hal TLocal th T). left. }
  destruct (run_single _ _ _ Hrun) as [r Hex].
  pose proof (exec_objects_frame _ _ _ _ _ Hex Hne) as Hobj.
  destruct (IH (track_event e σ) s1) as (s' & Hrun' & Hc' & Hg'); try done.
  { intros TLocal th T Hin. apply (Hal TLocal th T). by right. }
  { by rewrite Hobj. }
  exists s'. split; [|done]. by rewrite run_cons, Hrun.
Qed.

(** Lexically nested scopes leave the state and the guards alive as they
    found them. *)
Lemma scoped_restores body :
  scoped body → ∀ σ s,
  consistent σ s → well_nested body σ = true →
  run body s = Some s ∧ track body σ = σ.
Proof.
  induction 1 as [|TLocal th T this xs body rest Hbody IHbody Hrest IHrest
                  |TLocal th T this xs e rest He Hrest IHrest]; intros σ s Hc Hwn.
  - done.
  - simpl in Hwn. apply andb_true_iff in Hwn as [Hp Hwn].
    rewrite well_nested_app in Hwn. apply andb_true_iff in Hwn as [Hwb Hwn].
    simpl in Hwn. apply andb_true_iff in Hwn as [Hpd Hwr].
    apply bool_decide_eq_true in Hp. apply bool_decide_eq_true in Hpd.
    rewrite run_cons. simpl track. rewrite track_app. simpl.
    destruct (construct T xs) as [e|d] eqn:Hd.
    + (* the guard was not constructed: it cannot be destroyed *)
      destruct (IHbody σ s Hc Hwb) as [_ Htr]. rewrite Htr in Hpd.
      destruct (stack_of (declared TLocal th T) σ) as [|[a d] stk] eqn:Hstk; [done|].
      injection Hpd as ->.
      destruct Hp. apply (stack_of_addrs (declared TLocal th T) σ this d).
      rewrite Hstk. left.
    + rewrite (guard_ctor_normal _ _ _ _ _ d) by done. simpl.
      rewrite ptr_ref_declared.
      pose proof (consistent_construct σ s (declared TLocal th T) this d Hc Hp) as Hc1.
      destruct (IHbody _ _ Hc1 Hwb) as [Hrb Htb].
      rewrite run_app, Hrb, Htb. simpl.
      rewrite <-ptr_ref_declared.
      rewrite (guard_dtor_live _ _ _ _
                 (Guard d (slot_read (ptr_ref TLocal th T) s))).
      2:{ rewrite objects_slot_write. simpl. apply lookup_insert_eq. }
      simpl. rewrite ctor_dtor_restores by by eapply consistent_fresh.
      rewrite filter_cons, decide_False by (simpl; by intros ?).
      rewrite retire_absent by done.
      rewrite Htb in Hwr. simpl in Hwr.
      rewrite filter_cons, decide_False, retire_absent in Hwr
        by (done || simpl; by intros ?).
      by apply IHrest.
  - simpl in Hwn. apply andb_true_iff in Hwn as [Hp Hwn].
    simpl. rewrite (guard_ctor_throws _ _ _ _ _ e) by done. simpl in Hwn.
    rewrite He in *. by apply IHrest.
Qed.

(** The state a program reaches just after a guard it constructs. *)
Lemma reachable_after_construct pre TLocal th T this xs d rest :
  construct T xs = inr d →
  well_nested (pre ++ Construct TLocal th T this xs :: rest) [] = true →
  ∃ s0 s1,
    run pre initial = Some s0 ∧ consistent (track pre []) s0 ∧
    (this ∉ addrs (track pre [])) ∧
    s1 = slot_write (ptr_ref TLocal th T) (Some this)
           (put_object this (Guard d (slot_read (ptr_ref TLocal th T) s0)) s0) ∧
    run (pre ++ [Construct TLocal th T this xs]) initial = Some s1 ∧
    consistent (Live (declared TLocal th T) this d :: track pre []) s1 ∧
    well_nested rest (Live (declared TLocal th T) this d :: track pre []) = true.
Proof.
  intros Hd Hwn. rewrite well_nested_app in Hwn.
  apply andb_true_iff in Hwn as [Hpre Hwn]. simpl in Hwn. rewrite Hd in Hwn.
  apply andb_true_iff in Hwn as [Hp Hrest]. apply bool_decide_eq_true in Hp.
  destruct (reachable pre Hpre) as (s0 & Hrun0 & Hc0).
  exists s0. eexists. split; [done|]. split; [done|]. split; [done|].
  split; [reflexivity|]. split; [|split; [|done]].
  - rewrite run_app, Hrun0. simpl. by rewrite (guard_ctor_normal _ _ _ _ _ d).
  - by apply consistent_construct.
Qed.

(** C3. The destructor of a live guard returns normally and leaves in the
    slot the [_prev] the guard saved, whatever the state; it never throws
    or aborts. A guard constructed and at once destroyed leaves the slot
    (and, on free storage, the whole state) as it was, from every state.
    And in a program that keeps the discipline, after the destruction of a
    guard the slot holds what it held just before that guard's
    construction, whatever ran in between without destroying it. *)
Theorem guard_round_trip TLocal th T this xs d :
  construct T xs = inr d →
  let k := ptr_ref TLocal th T in
  (∀ s g, objects s !! this = Some g →
     ∃ s', guard_dtor TLocal th T this s = (Normal tt, s') ∧
           slot_read k s' = _prev g) ∧
  (∀ s r s', guard_dtor TLocal th T this s = (r, s') →
     (∀ e, r ≠ Throws e) ∧ (∀ diag, r ≠ Aborted diag)) ∧
  (∀ s, ∃ s1 s2,
     guard_ctor TLocal th T this xs s = (Normal tt, s1) ∧
     guard_dtor TLocal th T this s1 = (Normal tt, s2) ∧
     slot_read k s2 = slot_read k s ∧
     (objects s !! this = None → s2 = s)) ∧
  (∀ pre body,
     alive_through this body →
     well_nested (pre ++ Construct TLocal th T this xs
                      :: body ++ [Destroy TLocal th T this]) [] = true →
     ∃ s0 s1 s2,
       run pre initial = Some s0 ∧
       run (pre ++ Construct TLocal th T this xs :: body) initial = Some s1 ∧
       guard_dtor TLocal th T this s1 = (Normal tt, s2) ∧
       run (pre ++ Construct TLocal th T this xs
                :: body ++ [Destroy TLocal th T this]) initial = Some s2 ∧
       slot_read k s2 = slot_read k s0).
Proof.
  intros Hd k. split; [|split; [|split]].
  - intros s g Hg. eexists. split; [by apply guard_dtor_live|].
    by rewrite slot_read_drop_object, slot_read_write.
  - intros s r s'. destruct (objects s !! this) as [g|] eqn:Hg.
    + rewrite (guard_dtor_live _ _ _ _ g) by done. by intros [= <- _].
    + rewrite guard_dtor_dead by done. by intros [= <- _].
  - intros s. do 2 eexists. split; [by apply guard_ctor_normal|].
    split; [|split].
    + apply guard_dtor_live. rewrite objects_slot_write. simpl.
      apply lookup_insert_eq.
    + by rewrite slot_read_drop_object, slot_read_write.
    + simpl. apply ctor_dtor_restores.
  - intros pre body Hal Hwn.
    destruct (reachable_after_construct _ _ _ _ _ _ d _ Hd Hwn)
      as (s0 & sc & Hrun0 & Hc0 & Hfresh & -> & Hrun1 & Hc1 & Hwn1).
    rewrite well_nested_app in Hwn1. apply andb_true_iff in Hwn1 as [Hwb _].
    destruct (guard_survives body _ _ this
                (Guard d (slot_read k s0)) Hc1 Hwb Hal) as (s1 & Hrb & Hcb & Hg).
    { rewrite objects_slot_write. simpl. apply lookup_insert_eq. }
    assert (Hrun : run (pre ++ Construct TLocal th T this xs :: body) initial
                   = Some s1).
    { rewrite (cons_middle _ pre body), app_assoc, run_app, Hrun1. done. }
    exists s0, s1. eexists. split; [done|]. split; [done|].
    split; [by apply guard_dtor_live|]. split.
    + rewrite app_comm_cons, app_assoc, run_app, Hrun. simpl.
      by rewrite (guard_dtor_live _ _ _ _ _ _ Hg).
    + by rewrite slot_read_drop_object, slot_read_write.
Qed.

(** C6, as the code has it. In a program of nested scopes that keeps the
    discipline, [get_top] on the installing thread just after a local guard
    is installed returns that guard's payload; just after a global guard is
    installed it returns that guard's payload when no local guard of the
    type is alive on the thread, and the innermost local guard's payload
    otherwise; and once the guard's scope has ended the state is the one
    before the guard was installed, so [get_top] returns what it returned
    then, and in the checked build aborts with the no-context diagnostic
    if nothing was visible then. *)
Theorem get_top_around_scope dbg TLocal th T this xs d pre body :
  construct T xs = inr d →
  scoped body →
  well_nested (pre ++ Construct TLocal th T this xs
                   :: body ++ [Destroy TLocal th T this]) [] = true →
  ∃ s0 s1 s2,
    run pre initial = Some s0 ∧
    run (pre ++ [Construct TLocal th T this xs]) initial = Some s1 ∧
    run (pre ++ Construct TLocal th T this xs
             :: body ++ [Destroy TLocal th T this]) initial = Some s2 ∧
    (TLocal = true ∨ innermost (LocalSlot th T) (track pre []) = None →
       observe (get_top dbg th T) s1 = Normal (this, Some d)) ∧
    (∀ a' d', TLocal = false →
       innermost (LocalSlot th T) (track pre []) = Some (a', d') →
       observe (get_top dbg th T) s1 = Normal (a', Some d')) ∧
    s2 = s0 ∧
    (∀ th', observe (get_top dbg th' T) s2 = observe (get_top dbg th' T) s0) ∧
    (innermost (LocalSlot th T) (track pre []) = None →
     innermost (GlobalSlot T) (track pre []) = None →
     get_top true th T s2 = (Aborted (diagnostic "no available context"), s2)).
Proof.
  intros Hd Hbody Hwn.
  destruct (reachable_after_construct _ _ _ _ _ _ d _ Hd Hwn)
    as (s0 & s1 & Hrun0 & Hc0 & Hfresh & Hs1 & Hrun1 & Hc1 & Hwn1).
  set (k := ptr_ref TLocal th T) in *.
  rewrite well_nested_app in Hwn1. apply andb_true_iff in Hwn1 as [Hwb _].
  destruct (scoped_restores body Hbody _ _ Hc1 Hwb) as [Hrb _].
  assert (Hobj : objects s1 = <[this := Guard d (slot_read k s0)]> (objects s0)).
  { subst s1. by rewrite objects_slot_write. }
  assert (Hk : slot_read k s1 = Some this).
  { subst s1. apply slot_read_write. }
  assert (Hk' : ∀ k', k ≠ k' → slot_read k' s1 = slot_read k' s0).
  { intros k' Hne. subst s1. by rewrite slot_read_write_ne, slot_read_put_object. }
  assert (Hload : load s1 this = Some d).
  { unfold load. by rewrite Hobj, lookup_insert_eq. }
  assert (Hrun2 : run (pre ++ Construct TLocal th T this xs
                           :: body ++ [Destroy TLocal th T this]) initial = Some s0).
  { rewrite (cons_middle _ pre), app_assoc, run_app, Hrun1. simpl.
    rewrite run_app, Hrb. simpl.
    rewrite (guard_dtor_live _ _ _ _ (Guard d (slot_read k s0)))
      by (by rewrite Hobj, lookup_insert_eq).
    simpl. fold k. subst s1. rewrite ctor_dtor_restores; [done|].
    by eapply consistent_fresh. }
  pose proof (consistent_slot _ _ (LocalSlot th T) Hc0) as Hl0.
  pose proof (consistent_slot _ _ (GlobalSlot T) Hc0) as Hg0.
  exists s0, s1, s0.
  split; [done|]. split; [done|]. split; [done|].
  split; [|split; [|split; [done|split; [done|]]]].
  - intros Hcase. unfold tlcontext.observe. rewrite get_top_eval.
    change (local_top_ptr s1 !! (th, T)) with (slot_read (LocalSlot th T) s1).
    change (global_top_ptr s1 !! T) with (slot_read (GlobalSlot T) s1).
    destruct TLocal; subst k; cbn [ptr_ref] in *.
    + by rewrite Hk, Hload.
    + destruct Hcase as [?|Hnone]; [done|].
      rewrite (Hk' (LocalSlot th T)), Hl0, Hnone by done. simpl.
      change (global_top_ptr s1 !! T) with (slot_read (GlobalSlot T) s1).
      by rewrite Hk, Hload.
  - intros a' d' -> Hsome. subst k. cbn [ptr_ref] in *. unfold tlcontext.observe.
    rewrite get_top_eval.
    change (local_top_ptr s1 !! (th, T)) with (slot_read (LocalSlot th T) s1).
    rewrite (Hk' (LocalSlot th T)), Hl0, Hsome by done. simpl. do 2 f_equal.
    rewrite <-(consistent_load _ _ _ _ _ Hc0 Hsome).
    unfold load. rewrite Hobj. f_equal. apply lookup_insert_ne. intros <-.
    apply Hfresh, (stack_of_addrs (LocalSlot th T) _ _ d').
    unfold innermost in Hsome. by apply head_Some_elem_of.
  - intros Hln Hgn. rewrite get_top_eval.
    simpl in Hl0, Hg0. by rewrite Hl0, Hln, Hg0, Hgn.
Qed.

(** ** What an accessor sees, by the slots it reads *)

Lemma observe_get_local dbg th U s :
  observe (get_local dbg th U) s =
    match slot_read (LocalSlot th U) s with
    | Some a => Normal (a, load s a)
    | None =>
        if dbg then Aborted (diagnostic "tried using inactive local context")
        else Undefined
    end.
Proof.
  unfold tlcontext.observe. rewrite get_local_eval. simpl.
  by destruct (local_top_ptr s !! (th, U)), dbg.
Qed.

Lemma observe_get_global dbg U s :
  observe (get_global dbg U) s =
    match slot_read (GlobalSlot U) s with
    | Some a => Normal (a, load s a)
    | None =>
        if dbg then Aborted (diagnostic "tried using inactive global context")
        else Undefined
    end.
Proof.
  unfold tlcontext.observe. rewrite get_global_eval. simpl.
  by destruct (global_top_ptr s !! U), dbg.
Qed.

Lemma observe_get_top dbg th U s :
  observe (get_top dbg th U) s =
    match slot_read (LocalSlot th U) s with
    | Some a => Normal (a, load s a)
    | None =>
        match slot_read (GlobalSlot U) s with
        | Some a => Normal (a, load s a)
        | None =>
            if dbg then Aborted (diagnostic "no available context") else Undefined
        end
    end.
Proof.
  unfold tlcontext.observe. rewrite get_top_eval. simpl.
  destruct (local_top_ptr s !! (th, U)); [done|].
  by destruct (global_top_ptr s !! U), dbg.
Qed.

Lemma observe_untouched dbg th U s s' :
  (untouched (LocalSlot th U) s s' →
     observe (get_local dbg th U) s' = observe (get_local dbg th U) s) ∧
  (untouched (GlobalSlot U) s s' →
     observe (get_global dbg U) s' = observe (get_global dbg U) s) ∧
  (untouched (LocalSlot th U) s s' → untouched (GlobalSlot U) s s' →
     observe (get_top dbg th U) s' = observe (get_top dbg th U) s).
Proof.
  rewrite !observe_get_local, !observe_get_global, !observe_get_top.
  split; [|split].
  - intros [-> Hl]. destruct (slot_read (LocalSlot th U) s); [|done].
    by rewrite Hl.
  - intros [-> Hg]. destruct (slot_read (GlobalSlot U) s); [|done].
    by rewrite Hg.
  - intros [-> Hl] [-> Hg].
    destruct (slot_read (LocalSlot th U) s); [by rewrite Hl|].
    destruct (slot_read (GlobalSlot U) s); [by rewrite Hg | done].
Qed.

(** While the discipline is kept, an event touches no slot but its own, and
    no payload behind another slot. *)
Lemma event_untouched e σ s r s' k :
  consistent σ s → permitted e σ = true → exec e s = (r, s') →
  k ≠ event_slot e → untouched k s s'.
Proof.
  intros Hc Hp Hex Hne. split; [by eapply exec_slot_frame|].
  intros a Ha. unfold load. f_equal. eapply exec_objects_frame; [done|].
  rewrite (consistent_slot _ _ k Hc) in Ha. unfold innermost in Ha.
  destruct (stack_of k σ) as [|[a' d'] stk] eqn:Hstk; [done|]. injection Ha as ->.
  assert (Hin : (a, d') ∈ stack_of k σ) by (rewrite Hstk; left).
  destruct e as [TLocal th T this xs|TLocal th T this]; simpl in *; intros ->.
  - apply bool_decide_eq_true in Hp. by apply Hp, (stack_of_addrs k σ _ d').
  - apply bool_decide_eq_true in Hp. rewrite ptr_ref_declared in Hne.
    destruct (stack_of (declared TLocal th T) σ) as [|[b db] stk'] eqn:Hstk'; [done|].
    injection Hp as ->. apply Hne.
    apply (stack_of_slot_unique σ _ _ this d' db (consistent_nodup _ _ Hc));
      [done | rewrite Hstk'; left].
Qed.

(** The states before and after the last event of a program. *)
Lemma reachable_last tr e :
  well_nested (tr ++ [e]) [] = true →
  ∃ s r s',
    run tr initial = Some s ∧ consistent (track tr []) s ∧
    permitted e (track tr []) = true ∧
    exec e s = (r, s') ∧ run (tr ++ [e]) initial = Some s'.
Proof.
  intros Hwn. rewrite well_nested_app in Hwn.
  apply andb_true_iff in Hwn as [Hwn Hp]. simpl in Hp.
  rewrite andb_true_r in Hp.
  destruct (reachable tr Hwn) as (s & Hrun & Hc).
  destruct (consistent_step e _ s Hc Hp) as (s' & Hrun' & _).
  destruct (run_single _ _ _ Hrun') as [r Hex].
  exists s, r, s'. repeat (split; [done|]). by rewrite run_app, Hrun.
Qed.

(** ** A local guard and the global slot *)

(** C7. Constructing a local guard of [T] on free storage leaves the map of
    global slots as it is; with a global guard of [T] alive, [get_global]
    returns the same reference and payload while the local guard is
    active and [get_top] returns the local guard's payload; destroying the
    local guard gives back the state before it, where [get_top] returns the
    global payload if no other local guard is alive on the thread. *)
Theorem local_guard_leaves_global dbg th T this xs d g dg s :
  construct T xs = inr d →
  objects s !! this = None →
  global_top_ptr s !! T = Some g →
  load s g = Some dg →
  ∃ s1,
    guard_ctor true th T this xs s = (Normal tt, s1) ∧
    global_top_ptr s1 = global_top_ptr s ∧
    observe (get_global dbg T) s = Normal (g, Some dg) ∧
    observe (get_global dbg T) s1 = Normal (g, Some dg) ∧
    observe (get_top dbg th T) s1 = Normal (this, Some d) ∧
    guard_dtor true th T this s1 = (Normal tt, s) ∧
    (local_top_ptr s !! (th, T) = None →
       observe (get_top dbg th T) s = Normal (g, Some dg)).
Proof.
  intros Hd Hfree Hg Hdg. eexists. split; [by apply guard_ctor_normal|].
  set (s1 := slot_write _ _ _).
  assert (Hobj : objects s1 = <[this := Guard d (slot_read (LocalSlot th T) s)]> (objects s)).
  { unfold s1. by rewrite objects_slot_write. }
  assert (Hne : this ≠ g).
  { intros ->. unfold load in Hdg. by rewrite Hfree in Hdg. }
  assert (Hdg1 : load s1 g = Some dg).
  { unfold load. rewrite Hobj, lookup_insert_ne by done. apply Hdg. }
  split; [done|].
  rewrite !observe_get_global, !observe_get_top.
  change (slot_read (GlobalSlot T) s1) with (global_top_ptr s !! T).
  unfold s1 at 2. simpl ptr_ref. rewrite slot_read_write.
  simpl slot_read. rewrite Hg, Hdg, Hdg1.
  repeat (split; [done|]). split; [|split].
  - unfold load. by rewrite Hobj, lookup_insert_eq.
  - rewrite (guard_dtor_live _ _ _ _ (Guard d (slot_read (LocalSlot th T) s)))
      by (by rewrite Hobj, lookup_insert_eq).
    f_equal. by apply (ctor_dtor_restores (LocalSlot th T)).
  - by intros ->.
Qed.

(** ** Independence of payload types *)

(** C8. In a program that keeps the discipline, constructing or destroying
    a guard of a type other than [U], of either scope and on any thread,
    leaves the global slot of [U] and the local slot of [U] of every
    thread as they are, and every accessor of [U] returns the same
    reference and payload, or ends the same way, before and after. *)
Theorem type_independence dbg tr e U :
  event_type e ≠ U →
  well_nested (tr ++ [e]) [] = true →
  ∃ s s',
    run tr initial = Some s ∧ run (tr ++ [e]) initial = Some s' ∧
    global_top_ptr s' !! U = global_top_ptr s !! U ∧
    (∀ th, local_top_ptr s' !! (th, U) = local_top_ptr s !! (th, U)) ∧
    (∀ th, observe (get_local dbg th U) s' = observe (get_local dbg th U) s) ∧
    observe (get_global dbg U) s' = observe (get_global dbg U) s ∧
    (∀ th, observe (get_top dbg th U) s' = observe (get_top dbg th U) s).
Proof.
  intros Hne Hwn.
  destruct (reachable_last tr e Hwn) as (s & r & s' & Hrun & Hc & Hp & Hex & Hrun').
  assert (Hun : ∀ k, (∃ th, k = LocalSlot th U) ∨ k = GlobalSlot U → untouched k s s').
  { intros k Hk. eapply event_untouched; try done.
    destruct e as [[] th T this xs|[] th T this]; simpl in *;
      destruct Hk as [[th' ->]| ->]; congruence. }
  exists s, s'. split; [done|]. split; [done|].
  split; [apply (Hun (GlobalSlot U)); by right|].
  split; [intros th; apply (Hun (LocalSlot th U)); eauto|].
  split; [|split].
  - intros th. apply observe_untouched, Hun. eauto.
  - apply (observe_untouched dbg (event_thread e)), Hun. by right.
  - intros th. apply observe_untouched; apply Hun; eauto.
Qed.

(** ** Isolation of threads *)

Lemma exec_eval e s :
  exec e s =
    match e with
    | Construct TLocal th T this xs =>
        match construct T xs with
        | inl x => (Throws x, s)
        | inr d =>
            (Normal tt,
             slot_write (ptr_ref TLocal th T) (Some this)
               (put_object this (Guard d (slot_read (ptr_ref TLocal th T) s)) s))
        end
    | Destroy TLocal th T this =>
        match objects s !! this with
        | Some g =>
            (Normal tt, drop_object this (slot_write (ptr_ref TLocal th T) (_prev g) s))
        | None => (Undefined, s)
        end
    end.
Proof.
  destruct e as [TLocal th T this xs|TLocal th T this]; simpl.
  - destruct (construct T xs) as [x|d] eqn:Hd.
    + by apply guard_ctor_throws.
    + by apply guard_ctor_normal.
  - destruct (objects s !! this) as [g|] eqn:Hg.
    + by apply guard_dtor_live.
    + by apply guard_dtor_dead.
Qed.

Lemma exec_local_global e s r s' :
  event_local e = true → exec e s = (r, s') → global_top_ptr s' = global_top_ptr s.
Proof.
  rewrite exec_eval.
  destruct e as [[] th T this xs|[] th T this]; simpl; try done; intros _.
  - destruct (construct T xs); by intros [= _ <-].
  - destruct (objects s !! this); by intros [= _ <-].
Qed.

Lemma run_construct_throws TLocal th T this xs x tr s :
  construct T xs = inl x → run (Construct TLocal th T this xs :: tr) s = run tr s.
Proof. intros Hx. simpl. by rewrite (guard_ctor_throws _ _ _ _ _ x). Qed.

Lemma run_construct_normal TLocal th T this xs d tr s :
  construct T xs = inr d →
  run (Construct TLocal th T this xs :: tr) s =
    run tr (slot_write (ptr_ref TLocal th T) (Some this)
              (put_object this (Guard d (slot_read (ptr_ref TLocal th T) s)) s)).
Proof. intros Hd. simpl. by rewrite (guard_ctor_normal _ _ _ _ _ d). Qed.

Lemma run_destroy_live TLocal th T this g tr s :
  objects s !! this = Some g →
  run (Destroy TLocal th T this :: tr) s =
    run tr (drop_object this (slot_write (ptr_ref TLocal th T) (_prev g) s)).
Proof. intros Hg. simpl. by rewrite (guard_dtor_live _ _ _ _ g). Qed.

Lemma run_destroy_dead TLocal th T this tr s :
  objects s !! this = None → run (Destroy TLocal th T this :: tr) s = None.
Proof. intros Hg. simpl. by rewrite guard_dtor_dead. Qed.

(** Two events of local guards, of different threads and on different
    storage, give the same state in either order. *)
Lemma local_events_commute e e' s :
  event_local e = true → event_local e' = true →
  event_thread e ≠ event_thread e' → event_addr e ≠ event_addr e' →
  run [e; e'] s = run [e'; e] s.
Proof.
  intros Hl Hl' Hth Ha.
  destruct e as [L th T a xs|L th T a], e' as [L' th' T' a' xs'|L' th' T' a'];
    simpl in Hl, Hl', Hth, Ha; subst L L';
    assert (Hk : (th, T) ≠ (th', T')) by congruence;
    assert (Hk' : (th', T') ≠ (th, T)) by congruence;
    assert (Ha' : a' ≠ a) by congruence.
  - destruct (construct T xs) as [x|d] eqn:Hd,
             (construct T' xs') as [x'|d'] eqn:Hd';
      repeat first [ erewrite run_construct_throws by eassumption
                   | erewrite run_construct_normal by eassumption ];
      try done.
    destruct s as [gl lo ob]. unfold slot_write, put_object. simpl.
    rewrite !lookup_partial_alter_ne by done.
    do 2 f_equal; [by apply partial_alter_partial_alter_ne | by apply insert_insert_ne].
  - destruct (construct T xs) as [x|d] eqn:Hd,
             (objects s !! a') as [g'|] eqn:Hg'.
    + rewrite (run_destroy_live _ _ _ _ g') by done.
      rewrite !(run_construct_throws _ _ _ _ _ x) by done.
      by rewrite (run_destroy_live _ _ _ _ g').
    + rewrite (run_construct_throws _ _ _ _ _ x) by done.
      by rewrite !run_destroy_dead.
    + rewrite (run_destroy_live _ _ _ _ g') by done.
      rewrite !(run_construct_normal _ _ _ _ _ d) by done.
      rewrite (run_destroy_live _ _ _ _ g')
        by (rewrite objects_slot_write; simpl; by rewrite lookup_insert_ne).
      destruct s as [gl lo ob]. unfold slot_write, put_object, drop_object. simpl.
      rewrite !lookup_partial_alter_ne by done.
      do 2 f_equal; [by apply partial_alter_partial_alter_ne|].
      by rewrite delete_insert_ne.
    + rewrite (run_construct_normal _ _ _ _ _ d) by done.
      rewrite !run_destroy_dead; try done.
      rewrite objects_slot_write. simpl. by rewrite lookup_insert_ne.
  - destruct (construct T' xs') as [x'|d'] eqn:Hd',
             (objects s !! a) as [g|] eqn:Hg.
    + rewrite (run_destroy_live _ _ _ _ g) by done.
      rewrite !(run_construct_throws _ _ _ _ _ x') by done.
      by rewrite (run_destroy_live _ _ _ _ g).
    + rewrite (run_construct_throws _ _ _ _ _ x') by done.
      by rewrite !run_destroy_dead.
    + rewrite (run_destroy_live _ _ _ _ g) by done.
      rewrite !(run_construct_normal _ _ _ _ _ d') by done.
      rewrite (run_destroy_live _ _ _ _ g)
        by (rewrite objects_slot_write; simpl; by rewrite lookup_insert_ne).
      destruct s as [gl lo ob]. unfold slot_write, put_object, drop_object. simpl.
      rewrite !lookup_partial_alter_ne by done.
      do 2 f_equal; [by apply partial_alter_partial_alter_ne|].
      by rewrite delete_insert_ne.
    + rewrite (run_construct_normal _ _ _ _ _ d') by done.
      rewrite !run_destroy_dead; try done.
      rewrite objects_slot_write. simpl. by rewrite lookup_insert_ne.
  - destruct (objects s !! a) as [g|] eqn:Hg, (objects s !! a') as [g'|] eqn:Hg'.
    + rewrite (run_destroy_live _ _ _ a g _ s), (run_destroy_live _ _ _ a' g' _ s)
        by done.
      rewrite (run_destroy_live _ _ _ a g), (run_destroy_live _ _ _ a' g')
        by (simpl; rewrite ?objects_slot_write; by rewrite lookup_delete_ne).
      destruct s as [gl lo ob]. unfold slot_write, drop_object. simpl.
      do 2 f_equal; [by apply partial_alter_partial_alter_ne | apply delete_delete].
    + rewrite (run_destroy_live _ _ _ _ g) by done.
      rewrite !run_destroy_dead; try done.
      simpl. rewrite ?objects_slot_write. by rewrite lookup_delete_ne.
    + rewrite (run_destroy_live _ _ _ a' g') by done.
      rewrite !run_destroy_dead; try done.
      simpl. rewrite ?objects_slot_write. by rewrite lookup_delete_ne.
    + by rewrite !run_destroy_dead.
Qed.

(** C9. An event of a local guard on one thread leaves the local slot of
    every other thread, and the map of global slots, as they are in every
    state; in a program that keeps the discipline [get_local] and
    [get_top] on another thread return the same reference and payload, or
    end the same way, before and after it; and it commutes with every
    local-guard event of another thread on other storage. *)
Theorem thread_isolation dbg e th' :
  event_local e = true →
  event_thread e ≠ th' →
  (∀ s r s' U, exec e s = (r, s') →
     local_top_ptr s' !! (th', U) = local_top_ptr s !! (th', U) ∧
     global_top_ptr s' = global_top_ptr s) ∧
  (∀ tr U, well_nested (tr ++ [e]) [] = true →
     ∃ s s',
       run tr initial = Some s ∧ run (tr ++ [e]) initial = Some s' ∧
       observe (get_local dbg th' U) s' = observe (get_local dbg th' U) s ∧
       observe (get_top dbg th' U) s' = observe (get_top dbg th' U) s) ∧
  (∀ e' s, event_local e' = true → event_thread e' = th' →
     event_addr e ≠ event_addr e' →
     run [e; e'] s = run [e'; e] s).
Proof.
  intros Hl Hth.
  assert (Hslot : ∀ U, LocalSlot th' U ≠ event_slot e ∧ GlobalSlot U ≠ event_slot e).
  { intros U. destruct e as [[] th T this xs|[] th T this]; simpl in *;
      split; congruence. }
  split; [|split].
  - intros s r s' U Hex. split; [|by eapply exec_local_global].
    apply (exec_slot_frame e s r s' (LocalSlot th' U) Hex), Hslot.
  - intros tr U Hwn.
    destruct (reachable_last tr e Hwn)
      as (s & r & s' & Hrun & Hc & Hp & Hex & Hrun').
    exists s, s'. split; [done|]. split; [done|].
    assert (Hul : untouched (LocalSlot th' U) s s').
    { eapply event_untouched; try done. apply Hslot. }
    assert (Hug : untouched (GlobalSlot U) s s').
    { eapply event_untouched; try done. apply Hslot. }
    split; by apply observe_untouched.
  - intros e' s Hl' <- Ha. by apply local_events_commute.
Qed.

(** * Further properties of [tlcontext.hpp] *)

(** ** What the accessors never do *)

(** X1. In both build modes and every state, an accessor leaves the state
    as it is and does not throw; the checked build never dereferences
    [nullptr] (it returns a reference or aborts), and the unchecked build
    never aborts. *)
Theorem accessors_only_read dbg th T s :
  (snd (get_local dbg th T s) = s ∧ snd (get_global dbg T s) = s ∧
   snd (get_top dbg th T s) = s) ∧
  (∀ e, fst (get_local dbg th T s) ≠ Throws e ∧
        fst (get_global dbg T s) ≠ Throws e ∧
        fst (get_top dbg th T s) ≠ Throws e) ∧
  (fst (get_local true th T s) ≠ Undefined ∧
   fst (get_global true T s) ≠ Undefined ∧
   fst (get_top true th T s) ≠ Undefined) ∧
  (∀ diag, fst (get_local false th T s) ≠ Aborted diag ∧
           fst (get_global false T s) ≠ Aborted diag ∧
           fst (get_top false th T s) ≠ Aborted diag).
Proof.
  rewrite !get_local_eval, !get_global_eval, !get_top_eval.
  destruct (local_top_ptr s !! (th, T)), (global_top_ptr s !! T), dbg;
    simpl; repeat split; done.
Qed.

(** X2. The checks of [TLCONTEXT_DEBUG] change nothing but misuse: where
    the checked accessor returns a reference the unchecked one returns the
    same, and the unchecked accessor has undefined behaviour exactly where
    the checked one aborts. *)
Theorem unchecked_agrees_with_checked th T s :
  (∀ a, get_local true th T s = (Normal a, s) ↔ get_local false th T s = (Normal a, s)) ∧
  (∀ a, get_global true T s = (Normal a, s) ↔ get_global false T s = (Normal a, s)) ∧
  (∀ a, get_top true th T s = (Normal a, s) ↔ get_top false th T s = (Normal a, s)) ∧
  ((∃ diag, get_local true th T s = (Aborted diag, s))
     ↔ get_local false th T s = (Undefined, s)) ∧
  ((∃ diag, get_global true T s = (Aborted diag, s))
     ↔ get_global false T s = (Undefined, s)) ∧
  ((∃ diag, get_top true th T s = (Aborted diag, s))
     ↔ get_top false th T s = (Undefined, s)).
Proof.
  rewrite !get_local_eval, !get_global_eval, !get_top_eval.
  destruct (local_top_ptr s !! (th, T)), (global_top_ptr s !! T);
    repeat apply conj; naive_solver.
Qed.

(** ** The accessor of a guard's own slot *)

(** The states before a guard, inside its scope and after its scope of
    nested scopes. *)
Lemma reachable_around_scope TLocal th T this xs d pre body :
  construct T xs = inr d →
  scoped body →
  well_nested (pre ++ Construct TLocal th T this xs
                   :: body ++ [Destroy TLocal th T this]) [] = true →
  ∃ s0 s1,
    run pre initial = Some s0 ∧
    run (pre ++ [Construct TLocal th T this xs]) initial = Some s1 ∧
    run (pre ++ Construct TLocal th T this xs
             :: body ++ [Destroy TLocal th T this]) initial = Some s0 ∧
    slot_read (ptr_ref TLocal th T) s1 = Some this ∧
    load s1 this = Some d.
Proof.
  intros Hd Hbody Hwn.
  destruct (reachable_after_construct _ _ _ _ _ _ d _ Hd Hwn)
    as (s0 & s1 & Hr0 & Hc0 & Hfresh & Hs1 & Hr1 & Hc1 & Hwn1).
  rewrite well_nested_app in Hwn1. apply andb_true_iff in Hwn1 as [Hwb _].
  destruct (scoped_restores body Hbody _ _ Hc1 Hwb) as [Hrb _].
  assert (Hobj : objects s1 !! this
                 = Some (Guard d (slot_read (ptr_ref TLocal th T) s0))).
  { subst s1. rewrite objects_slot_write. simpl. apply lookup_insert_eq. }
  exists s0, s1. split; [done|]. split; [done|]. split; [|split].
  - rewrite (cons_middle _ pre), app_assoc, run_app, Hr1. simpl.
    rewrite run_app, Hrb. simpl. rewrite (guard_dtor_live _ _ _ _ _ _ Hobj).
    subst s1. simpl _prev. rewrite ctor_dtor_restores; [done|].
    by eapply consistent_fresh.
  - subst s1. apply slot_read_write.
  - unfold load. by rewrite Hobj.
Qed.

(** X3. In a program that keeps the discipline, just after a local guard
    is installed [get_local] on its thread returns that guard's payload,
    also under a live global guard and in both build modes; and once the
    guard's scope of nested scopes has ended [get_local] returns what it
    returned before the guard. *)
Theorem get_local_around_scope dbg th T this xs d pre body :
  construct T xs = inr d →
  scoped body →
  well_nested (pre ++ Construct true th T this xs
                   :: body ++ [Destroy true th T this]) [] = true →
  ∃ s0 s1 s2,
    run pre initial = Some s0 ∧
    run (pre ++ [Construct true th T this xs]) initial = Some s1 ∧
    run (pre ++ Construct true th T this xs
             :: body ++ [Destroy true th T this]) initial = Some s2 ∧
    observe (get_local dbg th T) s1 = Normal (this, Some d) ∧
    observe (get_local dbg th T) s2 = observe (get_local dbg th T) s0.
Proof.
  intros Hd Hbody Hwn.
  destruct (reachable_around_scope true th T this xs d pre body Hd Hbody Hwn)
    as (s0 & s1 & Hr0 & Hr1 & Hr2 & Hk & Hload).
  exists s0, s1, s0. repeat (split; [done|]). split; [|done].
  rewrite observe_get_local. cbn [ptr_ref] in Hk. by rewrite Hk, Hload.
Qed.

(** X4. A global guard is process-wide: in a program that keeps the
    discipline, just after thread [th] installs a global guard of [T],
    [get_global] returns its payload on every thread and [get_top] returns
    it on every thread that has no local guard of [T] alive, while
    [get_local] on every thread, and [get_top] on a thread with a local
    guard of [T], return what they returned before. *)
Theorem global_guard_seen_by_all_threads dbg th T this xs d pre :
  construct T xs = inr d →
  well_nested (pre ++ [Construct false th T this xs]) [] = true →
  ∃ s0 s1,
    run pre initial = Some s0 ∧
    run (pre ++ [Construct false th T this xs]) initial = Some s1 ∧
    observe (get_global dbg T) s1 = Normal (this, Some d) ∧
    ∀ th',
      observe (get_local dbg th' T) s1 = observe (get_local dbg th' T) s0 ∧
      (innermost (LocalSlot th' T) (track pre []) = None →
         observe (get_top dbg th' T) s1 = Normal (this, Some d)) ∧
      (innermost (LocalSlot th' T) (track pre []) ≠ None →
         observe (get_top dbg th' T) s1 = observe (get_top dbg th' T) s0).
Proof.
  intros Hd Hwn.
  destruct (reachable_after_construct _ _ _ _ _ _ d _ Hd Hwn)
    as (s0 & s1 & Hr0 & Hc0 & Hfresh & Hs1 & Hr1 & Hc1 & _).
  destruct (reachable_last _ _ Hwn) as (s0' & r & s1' & Hr0' & _ & Hp & Hex & Hr1').
  rewrite Hr0 in Hr0'. injection Hr0' as <-.
  rewrite Hr1 in Hr1'. injection Hr1' as <-.
  assert (Hg : slot_read (GlobalSlot T) s1 = Some this).
  { rewrite Hs1. apply (slot_read_write (GlobalSlot T)). }
  assert (Hload : load s1 this = Some d).
  { apply (consistent_load _ _ (GlobalSlot T) _ _ Hc1). unfold innermost. simpl.
    by rewrite decide_True. }
  exists s0, s1. split; [done|]. split; [done|]. split.
  { by rewrite observe_get_global, Hg, Hload. }
  intros th'.
  assert (Hul : untouched (LocalSlot th' T) s0 s1).
  { by eapply event_untouched. }
  split; [by apply observe_untouched|]. split.
  - intros Hnone. rewrite observe_get_top, Hg, Hload.
    destruct Hul as [-> _]. by rewrite (consistent_slot _ _ _ Hc0), Hnone.
  - intros Hsome. rewrite !observe_get_top.
    destruct Hul as [Hl Hp']. rewrite Hl.
    destruct (slot_read (LocalSlot th' T) s0) as [a|] eqn:Ha.
    + by rewrite (Hp' a).
    + rewrite (consistent_slot _ _ _ Hc0) in Ha.
      destruct (innermost (LocalSlot th' T) (track pre [])); done.
Qed.

(** ** The chain of [_prev] pointers *)

Lemma chain_linked (objs : gmap addr (@guard payload)) p stk n :
  linked objs p stk → length stk ≤ n → chain n objs p = stk.*1.
Proof.
  revert p n. induction stk as [|[a d] stk IH]; intros p n; simpl.
  - intros -> _. by destruct n.
  - intros (-> & prev & Ha & Hrest) Hn. destruct n as [|n]; [lia|].
    simpl. rewrite Ha. simpl. f_equal. apply IH; [done | lia].
Qed.

(** X5. The guards of a slot form an intrusive stack: after any program
    that keeps the discipline, following [_prev] from the slot pointer
    visits exactly the guards alive of that (type, scope), innermost
    first, and then ends at [nullptr]; no more steps than there are
    guards alive are taken, however many are allowed. *)
Theorem prev_chain_is_the_stack tr k n :
  well_nested tr [] = true →
  length (stack_of k (track tr [])) ≤ n →
  ∃ s, run tr initial = Some s ∧
       chain n (objects s) (slot_read k s) = (stack_of k (track tr [])).*1.
Proof.
  intros Hwn Hn. destruct (reachable tr Hwn) as (s & Hrun & Hc).
  exists s. split; [done|]. apply chain_linked; [apply Hc | done].
Qed.

(** ** Misuse that is not detected *)

(** X6. Destruction out of order is not detected and corrupts the slot.
    With guard [b] installed over guard [a] on one slot, destroying [a]
    first makes the slot skip [b], which is still alive; destroying [b]
    next leaves the slot pointing to the dead [a], and the checked
    accessor of that slot returns this dangling reference without
    aborting. *)
Theorem out_of_order_destruction TLocal th T tr a da b db rest :
  well_nested tr [] = true →
  stack_of (ptr_ref TLocal th T) (track tr []) = (b, db) :: (a, da) :: rest →
  ∃ s1 s2,
    run (tr ++ [Destroy TLocal th T a]) initial = Some s1 ∧
    slot_read (ptr_ref TLocal th T) s1 = fst <$> head rest ∧
    load s1 b = Some db ∧
    run (tr ++ [Destroy TLocal th T a; Destroy TLocal th T b]) initial = Some s2 ∧
    slot_read (ptr_ref TLocal th T) s2 = Some a ∧
    load s2 a = None ∧
    observe (get_own true TLocal th T) s2 = Normal (a, None).
Proof.
  intros Hwn Hstk. destruct (reachable tr Hwn) as (s & Hrun & Hc).
  set (k := ptr_ref TLocal th T) in *.
  pose proof (consistent_linked _ _ Hc k) as Hk.
  pose proof (stack_of_nodup k _ (consistent_nodup _ _ Hc)) as Hnd.
  rewrite Hstk in Hk, Hnd. simpl in Hk, Hnd.
  destruct Hk as (Hslot & pb & Hb & -> & pa & Ha & Hrest).
  apply NoDup_cons in Hnd as [Hne _]. rewrite not_elem_of_cons in Hne.
  destruct Hne as [Hne _].
  set (s1 := drop_object a (slot_write k pa s)).
  set (s2 := drop_object b (slot_write k (Some a) s1)).
  assert (Hb1 : objects s1 !! b = Some (Guard db (Some a))).
  { unfold s1. simpl. by rewrite objects_slot_write, lookup_delete_ne. }
  assert (Ha2 : objects s2 !! a = None).
  { unfold s2, s1. simpl. rewrite !objects_slot_write. simpl.
    rewrite objects_slot_write, lookup_delete_ne by done. apply lookup_delete_eq. }
  assert (Hk2 : slot_read k s2 = Some a).
  { unfold s2. by rewrite slot_read_drop_object, slot_read_write. }
  exists s1, s2. split; [|split; [|split; [|split; [|split; [done|split]]]]].
  - rewrite run_app, Hrun. simpl. by rewrite (guard_dtor_live _ _ _ _ _ _ Ha).
  - unfold s1. rewrite slot_read_drop_object, slot_read_write.
    by apply linked_head in Hrest.
  - unfold load. by rewrite Hb1.
  - rewrite run_app, Hrun. simpl. rewrite (guard_dtor_live _ _ _ _ _ _ Ha).
    fold k s1. by rewrite (guard_dtor_live _ _ _ _ _ _ Hb1).
  - unfold load. by rewrite Ha2.
  - unfold tlcontext.get_own. subst k. destruct TLocal; cbn [ptr_ref] in Hk2.
    + rewrite observe_get_local, Hk2. unfold load. by rewrite Ha2.
    + rewrite observe_get_global, Hk2. unfold load. by rewrite Ha2.
Qed.

(** X7. The slot a local guard restores is the one of the thread that runs
    its destructor. A local guard constructed on thread [th] and destroyed
    on another thread [th'] writes the top that [th] had before into the
    slot of [th'], and leaves the slot of [th] pointing to the destroyed
    guard; this holds from every state. *)
Theorem local_guard_destroyed_on_other_thread th th' T this xs d s :
  th ≠ th' →
  construct T xs = inr d →
  ∃ s1 s2,
    guard_ctor true th T this xs s = (Normal tt, s1) ∧
    guard_dtor true th' T this s1 = (Normal tt, s2) ∧
    local_top_ptr s2 !! (th', T) = local_top_ptr s !! (th, T) ∧
    local_top_ptr s2 !! (th, T) = Some this ∧
    load s2 this = None.
Proof.
  intros Hth Hd. do 2 eexists. split; [by apply guard_ctor_normal|].
  split.
  { apply guard_dtor_live. rewrite objects_slot_write. simpl. apply lookup_insert_eq. }
  simpl. split; [|split].
  - by rewrite lookup_partial_alter_eq.
  - rewrite lookup_partial_alter_ne by congruence. by rewrite lookup_partial_alter_eq.
  - unfold load. simpl. by rewrite lookup_delete_eq.
Qed.

End properties.

(** * The demonstration program

    The assertions of [main], [f0], [f1] and [f2], and the theorems above on
    the guards of [main]: threads [0] and [1], payload type [int_ctx_data],
    the guard objects at the addresses [1] to [4]. *)

Section demonstration.

Import Demo.

Local Abbreviation construct := Demo.construct.
Local Abbreviation run := (run Demo.construct).
Local Abbreviation track := (track Demo.construct).
Local Abbreviation well_nested := (well_nested Demo.construct).
Local Abbreviation scoped := (scoped Demo.construct).
Local Abbreviation exec := (exec Demo.construct).
Local Abbreviation guard_ctor := (guard_ctor Demo.construct).
Local Abbreviation guard_dtor := (guard_dtor (exn:=string)).
Local Abbreviation get_local := (get_local (exn:=string)).
Local Abbreviation get_global := (get_global (exn:=string)).
Local Abbreviation get_top := (get_top (exn:=string)).
Local Abbreviation observe := (observe (exn:=string)).
Local Abbreviation initial := (initial : demo_state).

(** The values the [assert]s of [tlcontext.cpp] expect from [get_local],
    [get_global] and [get_top], before [main] and after each of its seven
    guard events. *)
Example main_asserts :
  main_reads <$> seq 0 8 =
    [ Some (None, None, None);
      Some (None, Some 1%Z, Some 1%Z);
      Some (None, Some 5%Z, Some 5%Z);
      Some (Some 10%Z, Some 5%Z, Some 10%Z);
      Some (Some 15%Z, Some 5%Z, Some 15%Z);
      Some (Some 10%Z, Some 5%Z, Some 10%Z);
      Some (None, Some 5%Z, Some 5%Z);
      Some (None, Some 1%Z, Some 1%Z) ].
Proof. vm_compute. reflexivity. Qed.

Example main_guards_well_nested : well_nested main_guards [] = true.
Proof. reflexivity. Qed.

(** Misuse before any guard: the checked build aborts with the diagnostic,
    the unchecked build dereferences [nullptr]. *)
Example get_local_without_guard :
  get_local true 0 int_ctx initial
    = (Aborted ("TLCONTEXT FATAL ERROR: 'tried using inactive local context'" +:+ LF),
       initial) ∧
  get_local false 0 int_ctx initial = (Undefined, initial).
Proof. split; reflexivity. Qed.

(** In [main] after [gg(1)], [gg(5)] and [lg(10)]: the two global guards
    are the guards declared global, [gg(5)] innermost, and
    [global_top_ptr<int_ctx_data>] points to it; [lg(10)] is the one guard
    declared local on the thread and [local_top_ptr<int_ctx_data>] points
    to it; another thread has no local guard and a null pointer. *)
Example pointers_in_local_scope :
  stack_of (declared global_guard 0 int_ctx) (track in_local_scope [])
    = [(2%positive, 5%Z); (1%positive, 1%Z)] ∧
  global_top_ptr (state_after in_local_scope) !! int_ctx = Some 2%positive ∧
  stack_of (declared local_guard 0 int_ctx) (track in_local_scope [])
    = [(3%positive, 10%Z)] ∧
  local_top_ptr (state_after in_local_scope) !! (0, int_ctx) = Some 3%positive ∧
  stack_of (declared local_guard 1 int_ctx) (track in_local_scope []) = [] ∧
  local_top_ptr (state_after in_local_scope) !! (1, int_ctx) = None.
Proof. repeat split; vm_compute; reflexivity. Qed.

(** Without the discipline the slot is corrupted: after [out_of_order] the
    local slot is null although [lg(15)] is alive. *)
Example out_of_order_corrupts :
  well_nested out_of_order [] = false ∧
  stack_of (LocalSlot 0 int_ctx) (track out_of_order []) = [(4%positive, 15%Z)] ∧
  slot_read (LocalSlot 0 int_ctx) (state_after out_of_order) = None.
Proof. repeat split; vm_compute; reflexivity. Qed.

Lemma get_top_local_then_global_main :
  well_nested in_local_scope [] = true ∧
  ∃ s, run in_local_scope initial = Some s ∧
    (∀ a d, innermost (declared local_guard 0 int_ctx) (track in_local_scope [])
              = Some (a, d) →
       get_top true 0 int_ctx s = (Normal a, s) ∧ load s a = Some d) ∧
    (∀ th' a d,
       innermost (declared local_guard 0 int_ctx) (track in_local_scope []) = None →
       innermost (declared global_guard th' int_ctx) (track in_local_scope [])
         = Some (a, d) →
       get_top true 0 int_ctx s = (Normal a, s) ∧ load s a = Some d).
Proof.
  split; [reflexivity|].
  apply (get_top_local_then_global Demo.construct true in_local_scope 0 int_ctx).
  reflexivity.
Defined.

Lemma slot_is_innermost_guard_main :
  well_nested in_local_scope [] = true ∧
  (∀ th T, local_top_ptr (initial : demo_state) !! (th, T) = None ∧
           global_top_ptr (initial : demo_state) !! T = None) ∧
  ∃ s : demo_state, run in_local_scope initial = Some s ∧
    (∀ th T,
       let guards := stack_of (declared local_guard th T) (track in_local_scope []) in
       local_top_ptr s !! (th, T) = fst <$> head guards ∧
       (∀ a d, head guards = Some (a, d) → load s a = Some d) ∧
       (local_top_ptr s !! (th, T) = None ↔ guards = [])) ∧
    (∀ th T,
       let guards := stack_of (declared global_guard th T) (track in_local_scope []) in
       global_top_ptr s !! T = fst <$> head guards ∧
       (∀ a d, head guards = Some (a, d) → load s a = Some d) ∧
       (global_top_ptr s !! T = None ↔ guards = [])).
Proof.
  split; [reflexivity|].
  apply (slot_is_innermost_guard Demo.construct in_local_scope). reflexivity.
Defined.

Lemma guard_round_trip_main :
  construct int_ctx 10%Z = inr 10%Z ∧
  let k := ptr_ref true 0 int_ctx in
  (∀ (s : demo_state) g, objects s !! 3%positive = Some g →
     ∃ s', guard_dtor true 0 int_ctx 3%positive s = (Normal tt, s') ∧
           slot_read k s' = _prev g) ∧
  (∀ (s : demo_state) r s', guard_dtor true 0 int_ctx 3%positive s = (r, s') →
     (∀ e, r ≠ Throws e) ∧ (∀ diag, r ≠ Aborted diag)) ∧
  (∀ s : demo_state, ∃ s1 s2,
     guard_ctor true 0 int_ctx 3%positive 10%Z s = (Normal tt, s1) ∧
     guard_dtor true 0 int_ctx 3%positive s1 = (Normal tt, s2) ∧
     slot_read k s2 = slot_read k s ∧
     (objects s !! 3%positive = None → s2 = s)) ∧
  (∀ pre body,
     alive_through 3%positive body →
     well_nested (pre ++ Construct true 0 int_ctx 3%positive 10%Z
                      :: body ++ [Destroy true 0 int_ctx 3%positive]) [] = true →
     ∃ s0 s1 s2,
       run pre initial = Some s0 ∧
       run (pre ++ Construct true 0 int_ctx 3%positive 10%Z :: body) initial
         = Some s1 ∧
       guard_dtor true 0 int_ctx 3%positive s1 = (Normal tt, s2) ∧
       run (pre ++ Construct true 0 int_ctx 3%positive 10%Z
                :: body ++ [Destroy true 0 int_ctx 3%positive]) initial = Some s2 ∧
       slot_read k s2 = slot_read k s0).
Proof.
  split; [reflexivity|].
  apply (guard_round_trip Demo.construct true 0 int_ctx 3%positive 10%Z 10%Z).
  reflexivity.
Defined.

Lemma guard_ctor_throw_leaves_state_checked :
  construct "checked_ctx_data" (-1)%Z = inl "negative" ∧
  (∀ s : demo_state,
     guard_ctor true 0 "checked_ctx_data" 3%positive (-1)%Z s
       = (Throws "negative", s)) ∧
  (∀ (s : demo_state) r s' dbg th' U,
     guard_ctor true 0 "checked_ctx_data" 3%positive (-1)%Z s = (r, s') →
     get_local dbg th' U s' = get_local dbg th' U s ∧
     get_global dbg U s' = get_global dbg U s ∧
     get_top dbg th' U s' = get_top dbg th' U s) ∧
  (∀ tr (s : demo_state),
     run (tr ++ [Construct true 0 "checked_ctx_data" 3%positive (-1)%Z]) s
       = run tr s).
Proof.
  split; [reflexivity|].
  apply (guard_ctor_throw_leaves_state Demo.construct true 0 "checked_ctx_data"
           3%positive (-1)%Z "negative").
  reflexivity.
Defined.

Lemma checked_accessor_aborts_iff_missing_main :
  well_nested in_global_scope [] = true ∧
  ∃ s, run in_global_scope initial = Some s ∧
    let local := stack_of (declared local_guard 0 int_ctx) (track in_global_scope []) in
    let global := stack_of (declared global_guard 1 int_ctx) (track in_global_scope []) in
    (∀ diag, get_local true 0 int_ctx s = (Aborted diag, s) ↔
       local = [] ∧
       diag = "TLCONTEXT FATAL ERROR: 'tried using inactive local context'" +:+ LF) ∧
    (local ≠ [] → ∃ a, get_local true 0 int_ctx s = (Normal a, s)) ∧
    (∀ diag, get_global true int_ctx s = (Aborted diag, s) ↔
       global = [] ∧
       diag = "TLCONTEXT FATAL ERROR: 'tried using inactive global context'" +:+ LF) ∧
    (global ≠ [] → ∃ a, get_global true int_ctx s = (Normal a, s)) ∧
    (∀ diag, get_top true 0 int_ctx s = (Aborted diag, s) ↔
       (local = [] ∧ global = []) ∧
       diag = "TLCONTEXT FATAL ERROR: 'no available context'" +:+ LF) ∧
    (local ≠ [] ∨ global ≠ [] → ∃ a, get_top true 0 int_ctx s = (Normal a, s)).
Proof.
  split; [reflexivity|].
  apply (checked_accessor_aborts_iff_missing Demo.construct in_global_scope
           0 1 int_ctx).
  reflexivity.
Defined.

Lemma f1_block_scoped : scoped f1_block.
Proof. apply (scoped_guard _ true 0 int_ctx 4%positive 15%Z [] []); constructor. Qed.

Lemma get_top_around_scope_main :
  (construct int_ctx 10%Z = inr 10%Z ∧
   scoped f1_block ∧
   well_nested (in_global_scope ++ Construct true 0 int_ctx 3%positive 10%Z
                  :: f1_block ++ [Destroy true 0 int_ctx 3%positive]) [] = true) ∧
  ∃ s0 s1 s2,
    run in_global_scope initial = Some s0 ∧
    run (in_global_scope ++ [Construct true 0 int_ctx 3%positive 10%Z]) initial
      = Some s1 ∧
    run (in_global_scope ++ Construct true 0 int_ctx 3%positive 10%Z
           :: f1_block ++ [Destroy true 0 int_ctx 3%positive]) initial = Some s2 ∧
    (true = true ∨ innermost (LocalSlot 0 int_ctx) (track in_global_scope []) = None →
       observe (get_top true 0 int_ctx) s1 = Normal (3%positive, Some 10%Z)) ∧
    (∀ a' d', true = false →
       innermost (LocalSlot 0 int_ctx) (track in_global_scope []) = Some (a', d') →
       observe (get_top true 0 int_ctx) s1 = Normal (a', Some d')) ∧
    s2 = s0 ∧
    (∀ th', observe (get_top true th' int_ctx) s2
            = observe (get_top true th' int_ctx) s0) ∧
    (innermost (LocalSlot 0 int_ctx) (track in_global_scope []) = None →
     innermost (GlobalSlot int_ctx) (track in_global_scope []) = None →
     get_top true 0 int_ctx s2 = (Aborted (diagnostic "no available context"), s2)).
Proof.
  split; [split; [reflexivity | split; [exact f1_block_scoped | reflexivity]]|].
  apply (get_top_around_scope Demo.construct true true 0 int_ctx 3%positive
           10%Z 10%Z in_global_scope f1_block);
    [reflexivity | exact f1_block_scoped | reflexivity].
Defined.

(** C6 as stated fails: a global guard installed while a local guard of the
    type is alive on the thread is not what [get_top] returns. After
    [local_guard lg(10)] and then [global_guard gg(5)], [get_top] still
    returns the payload [10] of [lg]. *)
Lemma get_top_after_global_guard_under_local :
  ¬ (∀ dbg TLocal (th : nat) (T : string) this (xs d : Z) pre body,
       construct T xs = inr d →
       scoped body →
       well_nested (pre ++ Construct TLocal th T this xs
                        :: body ++ [Destroy TLocal th T this]) [] = true →
       ∃ s0 s1 s2,
         run pre initial = Some s0 ∧
         run (pre ++ [Construct TLocal th T this xs]) initial = Some s1 ∧
         run (pre ++ Construct TLocal th T this xs
                  :: body ++ [Destroy TLocal th T this]) initial = Some s2 ∧
         observe (get_top dbg th T) s1 = Normal (this, Some d) ∧
         observe (get_top dbg th T) s2 = observe (get_top dbg th T) s0).
Proof.
  intros Hall.
  destruct (Hall true false 0 int_ctx 2%positive 5%Z 5%Z
              [Construct true 0 int_ctx 1%positive 10%Z] [])
    as (s0 & s1 & s2 & _ & Hrun1 & _ & Hobs & _);
    [reflexivity | constructor | reflexivity |].
  vm_compute in Hrun1. injection Hrun1 as <-.
  vm_compute in Hobs. discriminate Hobs.
Qed.

Lemma local_guard_leaves_global_main :
  (construct int_ctx 10%Z = inr 10%Z ∧
   objects (state_after in_global_scope) !! 3%positive = None ∧
   global_top_ptr (state_after in_global_scope) !! int_ctx = Some 2%positive ∧
   load (state_after in_global_scope) 2%positive = Some 5%Z) ∧
  ∃ s1,
    guard_ctor true 0 int_ctx 3%positive 10%Z (state_after in_global_scope)
      = (Normal tt, s1) ∧
    global_top_ptr s1 = global_top_ptr (state_after in_global_scope) ∧
    observe (get_global true int_ctx) (state_after in_global_scope)
      = Normal (2%positive, Some 5%Z) ∧
    observe (get_global true int_ctx) s1 = Normal (2%positive, Some 5%Z) ∧
    observe (get_top true 0 int_ctx) s1 = Normal (3%positive, Some 10%Z) ∧
    guard_dtor true 0 int_ctx 3%positive s1
      = (Normal tt, state_after in_global_scope) ∧
    (local_top_ptr (state_after in_global_scope) !! (0, int_ctx) = None →
       observe (get_top true 0 int_ctx) (state_after in_global_scope)
         = Normal (2%positive, Some 5%Z)).
Proof.
  split; [repeat split; vm_compute; reflexivity|].
  apply (local_guard_leaves_global Demo.construct true 0 int_ctx 3%positive
           10%Z 10%Z 2%positive 5%Z (state_after in_global_scope));
    vm_compute; reflexivity.
Defined.

Lemma type_independence_main :
  (event_type metrics_guard ≠ int_ctx ∧
   well_nested (in_local_scope ++ [metrics_guard]) [] = true) ∧
  ∃ s s',
    run in_local_scope initial = Some s ∧
    run (in_local_scope ++ [metrics_guard]) initial = Some s' ∧
    global_top_ptr s' !! int_ctx = global_top_ptr s !! int_ctx ∧
    (∀ th : nat, local_top_ptr s' !! (th, int_ctx) = local_top_ptr s !! (th, int_ctx)) ∧
    (∀ th, observe (get_local true th int_ctx) s'
           = observe (get_local true th int_ctx) s) ∧
    observe (get_global true int_ctx) s' = observe (get_global true int_ctx) s ∧
    (∀ th, observe (get_top true th int_ctx) s'
           = observe (get_top true th int_ctx) s).
Proof.
  split; [split; [vm_compute; discriminate | reflexivity]|].
  apply (type_independence Demo.construct true in_local_scope metrics_guard int_ctx);
    [vm_compute; discriminate | reflexivity].
Defined.

Lemma thread_isolation_main :
  (event_local lg10 = true ∧ event_thread lg10 ≠ 1) ∧
  (∀ (s : demo_state) r s' U, exec lg10 s = (r, s') →
     local_top_ptr s' !! (1, U) = local_top_ptr s !! (1, U) ∧
     global_top_ptr s' = global_top_ptr s) ∧
  (∀ tr U, well_nested (tr ++ [lg10]) [] = true →
     ∃ s s',
       run tr initial = Some s ∧ run (tr ++ [lg10]) initial = Some s' ∧
       observe (get_local true 1 U) s' = observe (get_local true 1 U) s ∧
       observe (get_top true 1 U) s' = observe (get_top true 1 U) s) ∧
  (∀ e' (s : demo_state), event_local e' = true → event_thread e' = 1 →
     event_addr lg10 ≠ event_addr e' →
     run [lg10; e'] s = run [e'; lg10] s).
Proof.
  split; [split; [reflexivity | simpl; lia]|].
  apply (thread_isolation Demo.construct true lg10 1); [reflexivity | simpl; lia].
Defined.

Lemma get_top_ignores_global_main :
  local_top_ptr (state_after in_local_scope) !! (0, int_ctx) = Some 3%positive ∧
  ∀ g, get_top true 0 int_ctx
         (State g (local_top_ptr (state_after in_local_scope))
                  (objects (state_after in_local_scope)))
       = (Normal 3%positive,
          State g (local_top_ptr (state_after in_local_scope))
                  (objects (state_after in_local_scope))) ∧
     observe (get_top true 0 int_ctx)
         (State g (local_top_ptr (state_after in_local_scope))
                  (objects (state_after in_local_scope)))
       = observe (get_top true 0 int_ctx) (state_after in_local_scope) ∧
     observe (get_top true 0 int_ctx) (state_after in_local_scope)
       = Normal (3%positive, load (state_after in_local_scope) 3%positive).
Proof.
  split; [vm_compute; reflexivity|].
  apply (get_top_ignores_global true 0 int_ctx 3%positive (state_after in_local_scope)).
  vm_compute; reflexivity.
Defined.

(** ** The further properties on the guards of [main] *)

Lemma get_local_around_scope_main :
  (construct int_ctx 10%Z = inr 10%Z ∧
   scoped f1_block ∧
   well_nested (in_global_scope ++ Construct true 0 int_ctx 3%positive 10%Z
                  :: f1_block ++ [Destroy true 0 int_ctx 3%positive]) [] = true) ∧
  ∃ s0 s1 s2,
    run in_global_scope initial = Some s0 ∧
    run (in_global_scope ++ [Construct true 0 int_ctx 3%positive 10%Z]) initial
      = Some s1 ∧
    run (in_global_scope ++ Construct true 0 int_ctx 3%positive 10%Z
           :: f1_block ++ [Destroy true 0 int_ctx 3%positive]) initial = Some s2 ∧
    observe (get_local true 0 int_ctx) s1 = Normal (3%positive, Some 10%Z) ∧
    observe (get_local true 0 int_ctx) s2 = observe (get_local true 0 int_ctx) s0.
Proof.
  split; [split; [reflexivity | split; [exact f1_block_scoped | reflexivity]]|].
  apply (get_local_around_scope Demo.construct true 0 int_ctx 3%positive
           10%Z 10%Z in_global_scope f1_block);
    [reflexivity | exact f1_block_scoped | reflexivity].
Defined.

Lemma global_guard_seen_by_all_threads_main :
  (construct int_ctx 5%Z = inr 5%Z ∧
   well_nested (take 1 main_guards ++ [Construct false 0 int_ctx 2%positive 5%Z]) []
     = true) ∧
  ∃ s0 s1,
    run (take 1 main_guards) initial = Some s0 ∧
    run (take 1 main_guards ++ [Construct false 0 int_ctx 2%positive 5%Z]) initial
      = Some s1 ∧
    observe (get_global true int_ctx) s1 = Normal (2%positive, Some 5%Z) ∧
    ∀ th',
      observe (get_local true th' int_ctx) s1 = observe (get_local true th' int_ctx) s0 ∧
      (innermost (LocalSlot th' int_ctx) (track (take 1 main_guards) []) = None →
         observe (get_top true th' int_ctx) s1 = Normal (2%positive, Some 5%Z)) ∧
      (innermost (LocalSlot th' int_ctx) (track (take 1 main_guards) []) ≠ None →
         observe (get_top true th' int_ctx) s1 = observe (get_top true th' int_ctx) s0).
Proof.
  split; [split; reflexivity|].
  apply (global_guard_seen_by_all_threads Demo.construct true 0 int_ctx 2%positive
           5%Z 5%Z (take 1 main_guards)); reflexivity.
Defined.

Lemma prev_chain_is_the_stack_main :
  (well_nested (take 4 main_guards) [] = true ∧
   length (stack_of (LocalSlot 0 int_ctx) (track (take 4 main_guards) [])) ≤ 5) ∧
  ∃ s, run (take 4 main_guards) initial = Some s ∧
       chain 5 (objects s) (slot_read (LocalSlot 0 int_ctx) s)
         = (stack_of (LocalSlot 0 int_ctx) (track (take 4 main_guards) [])).*1.
Proof.
  split; [split; [reflexivity | vm_compute; lia]|].
  apply (prev_chain_is_the_stack Demo.construct (take 4 main_guards)
           (LocalSlot 0 int_ctx) 5); [reflexivity | vm_compute; lia].
Defined.

Lemma out_of_order_destruction_main :
  (well_nested (take 4 main_guards) [] = true ∧
   stack_of (ptr_ref true 0 int_ctx) (track (take 4 main_guards) [])
     = [(4%positive, 15%Z); (3%positive, 10%Z)]) ∧
  ∃ s1 s2,
    run (take 4 main_guards ++ [Destroy true 0 int_ctx 3%positive]) initial = Some s1 ∧
    slot_read (ptr_ref true 0 int_ctx) s1 = fst <$> head (@nil (addr * Z)) ∧
    load s1 4%positive = Some 15%Z ∧
    run (take 4 main_guards
           ++ [Destroy true 0 int_ctx 3%positive; Destroy true 0 int_ctx 4%positive])
        initial = Some s2 ∧
    slot_read (ptr_ref true 0 int_ctx) s2 = Some 3%positive ∧
    load s2 3%positive = None ∧
    observe (get_own (exn:=string) true true 0 int_ctx) s2 = Normal (3%positive, None).
Proof.
  split; [split; reflexivity|].
  apply (out_of_order_destruction Demo.construct true 0 int_ctx (take 4 main_guards)
           3%positive 10%Z 4%positive 15%Z []); reflexivity.
Defined.

Lemma local_guard_destroyed_on_other_thread_main :
  (0 ≠ 1 ∧ construct int_ctx 10%Z = inr 10%Z) ∧
  ∃ s1 s2,
    guard_ctor true 0 int_ctx 3%positive 10%Z (state_after in_global_scope)
      = (Normal tt, s1) ∧
    guard_dtor true 1 int_ctx 3%positive s1 = (Normal tt, s2) ∧
    local_top_ptr s2 !! (1, int_ctx)
      = local_top_ptr (state_after in_global_scope) !! (0, int_ctx) ∧
    local_top_ptr s2 !! (0, int_ctx) = Some 3%positive ∧
    load s2 3%positive = None.
Proof.
  split; [split; [lia | reflexivity]|].
  apply (local_guard_destroyed_on_other_thread Demo.construct 0 1 int_ctx 3%positive
           10%Z 10%Z (state_after in_global_scope)); [lia | reflexivity].
Defined.

End demonstration.

(** * Properties of the program of [tlcontext.cpp] *)

Section program_properties.

Import program.

Context {thread : Type} `{Countable thread}.
Context {time resource exn : Type}.
Variable steady_clock : nat → time.
Variable elapsed_us : time → time → Z.
Variable INT_MIN INT_MAX : Z.
Variable place : gmap addr (@guard (@ctx_data time resource)) → addr.
Variable show_pointer : resource → string.
Variable allocates : nat → resource → bool.
Variable bad_alloc : exn.
Variable new_delete_resource : resource.

(** Automatic storage does not overlap a live object. *)
Hypothesis place_free : ∀ objs, objs !! place objs = None.
(** [int] has the value [0]. *)
Hypothesis INT_MIN_nonpos : (INT_MIN ≤ 0)%Z.

Local Abbreviation ctx_data := (@ctx_data time resource).
Local Abbreviation int_ctx_data := (@int_ctx_data time resource).
Local Abbreviation metrics_ctx_data := (@metrics_ctx_data time resource).
Local Abbreviation pmr_context_data := (@pmr_context_data time resource).
Local Abbreviation world := (@world thread _ _ time resource).
Local Abbreviation W := (@W thread _ _ time resource exn).
Local Abbreviation construct := (@construct time resource exn).
Local Abbreviation lift := (lift (thread:=thread) (time:=time) (resource:=resource) (exn:=exn)).
Local Abbreviation with_guard := (with_guard (exn:=exn) place).
Local Abbreviation local_value := (local_value (exn:=exn)).
Local Abbreviation global_value := (global_value (thread:=thread) (exn:=exn)).
Local Abbreviation top_value := (top_value (exn:=exn)).
Local Abbreviation f0 := (f0 (time:=time) (resource:=resource) (exn:=exn)).
Local Abbreviation f1 := (f1 (exn:=exn) place).
Local Abbreviation f2 := (f2 (time:=time) (resource:=resource) (exn:=exn)).
Local Abbreviation metrics_guard_ctor :=
  (metrics_guard_ctor (resource:=resource) (exn:=exn) steady_clock INT_MIN INT_MAX).
Local Abbreviation metrics_guard_dtor :=
  (metrics_guard_dtor (exn:=exn) steady_clock elapsed_us INT_MIN INT_MAX).
Local Abbreviation with_metrics_guard :=
  (with_metrics_guard (exn:=exn) steady_clock elapsed_us INT_MIN INT_MAX place).
Local Abbreviation step1 :=
  (step1 (exn:=exn) steady_clock elapsed_us INT_MIN INT_MAX place).
Local Abbreviation client :=
  (client (exn:=exn) steady_clock elapsed_us INT_MIN INT_MAX place).
Local Abbreviation line := (line steady_clock elapsed_us).
Local Abbreviation behaves := (behaves (thread:=thread) (time:=time) (resource:=resource) (exn:=exn) INT_MAX).
Local Abbreviation using_resource := (using_resource show_pointer).
Local Abbreviation fpa1 := (fpa1 (time:=time) show_pointer allocates bad_alloc).
Local Abbreviation fpa0 :=
  (fpa0 (time:=time) place show_pointer allocates bad_alloc new_delete_resource).
Local Abbreviation main :=
  (main steady_clock elapsed_us INT_MIN INT_MAX place show_pointer allocates
        bad_alloc new_delete_resource).

Implicit Types (w : world) (th : thread) (x : ctx_data) (this : addr).

(** ** Strings and worlds *)

Lemma string_app_assoc (s1 s2 s3 : string) : (s1 +:+ s2) +:+ s3 = s1 +:+ s2 +:+ s3.
Proof.
  induction s1 as [|c s1 IH]; [done|].
  change (String c ((s1 +:+ s2) +:+ s3) = String c (s1 +:+ s2 +:+ s3)).
  by rewrite IH.
Qed.

Lemma string_app_empty (s1 : string) : s1 +:+ "" = s1.
Proof.
  induction s1 as [|c s1 IH]; [done|].
  change (String c (s1 +:+ "") = String c s1). by rewrite IH.
Qed.

Lemma with_contexts_same w : with_contexts (contexts w) w = w.
Proof. by destruct w. Qed.

Lemma with_contexts_twice s s' w :
  with_contexts s (with_contexts s' w) = with_contexts s w.
Proof. done. Qed.

(** ** Binding *)

Lemma wbind_eval {A B} (m : W A) (f : A → W B) w :
  (m ≫= f) w =
    match m w with
    | (Normal a, w') => f a w'
    | (Throws e, w') => (Throws e, w')
    | (Aborted d, w') => (Aborted d, w')
    | (Undefined, w') => (Undefined, w')
    end.
Proof. done. Qed.

Lemma wbind_normal {A B} (m : W A) (f : A → W B) w a w' :
  m w = (Normal a, w') → (m ≫= f) w = f a w'.
Proof. intros Hm. by rewrite wbind_eval, Hm. Qed.

(** ** Calls into [tlcontext.hpp] *)

Lemma lift_guard_ctor TLocal th T this x w :
  lift (guard_ctor construct TLocal th T this x) w =
    (Normal tt,
     with_contexts
       (slot_write (ptr_ref TLocal th T) (Some this)
          (put_object this (Guard x (slot_read (ptr_ref TLocal th T) (contexts w)))
             (contexts w))) w).
Proof.
  unfold program.lift. by rewrite (guard_ctor_normal _ _ _ _ _ _ x).
Qed.

Lemma lift_guard_dtor TLocal th T this g w :
  objects (contexts w) !! this = Some g →
  lift (guard_dtor TLocal th T this) w =
    (Normal tt,
     with_contexts
       (drop_object this (slot_write (ptr_ref TLocal th T) (_prev g) (contexts w))) w).
Proof.
  intros Hg. unfold program.lift. by rewrite (guard_dtor_live _ _ _ _ g).
Qed.

(** ** Guards with automatic storage *)

Lemma with_guard_eval {A} TLocal th T x (block : W A) w r w2 :
  block (with_contexts
           (slot_write (ptr_ref TLocal th T) (Some (place (objects (contexts w))))
              (put_object (place (objects (contexts w)))
                 (Guard x (slot_read (ptr_ref TLocal th T) (contexts w)))
                 (contexts w))) w) = (r, w2) →
  contexts w2 =
    slot_write (ptr_ref TLocal th T) (Some (place (objects (contexts w))))
      (put_object (place (objects (contexts w)))
         (Guard x (slot_read (ptr_ref TLocal th T) (contexts w))) (contexts w)) →
  with_guard TLocal th T x block w =
    (r, if unwinds r then with_contexts (contexts w) w2 else w2).
Proof.
  intros Hblock Hctx. unfold program.with_guard.
  rewrite wbind_eval, lift_guard_ctor. unfold at_scope_exit. rewrite Hblock.
  assert (Hdtor : lift (guard_dtor TLocal th T (place (objects (contexts w)))) w2
                  = (Normal tt, with_contexts (contexts w) w2)).
  { rewrite (lift_guard_dtor _ _ _ _
               (Guard x (slot_read (ptr_ref TLocal th T) (contexts w)))).
    - rewrite Hctx. simpl _prev. by rewrite ctor_dtor_restores.
    - rewrite Hctx, objects_slot_write. simpl. apply lookup_insert_eq. }
  destruct r as [a|e|d|]; simpl; try done;
    by rewrite wbind_eval, Hdtor.
Qed.

(** X8. A guard declared in a block restores the slots and guard objects
    on every way out that runs destructors. For a guard of either scope
    placed on free storage: inside the block the accessor of its slot
    returns its payload, and when the block, having restored the slots
    itself, returns or throws, the whole block returns or throws the same
    with the slots and the guard objects exactly as before the guard. *)
Theorem guard_scope_restores {A} TLocal th T x (block : W A) w :
  ∃ w1,
    lift (guard_ctor construct TLocal th T (place (objects (contexts w))) x) w
      = (Normal tt, w1) ∧
    observe (exn:=exn) (get_own true TLocal th T) (contexts w1)
      = Normal (place (objects (contexts w)), Some x) ∧
    ∀ r w2, block w1 = (r, w2) → unwinds r = true → contexts w2 = contexts w1 →
      with_guard TLocal th T x block w = (r, with_contexts (contexts w) w2).
Proof.
  eexists. split; [apply lift_guard_ctor|]. split.
  - unfold get_own, observe.
    destruct TLocal; simpl ptr_ref;
      rewrite ?get_local_eval, ?get_global_eval; simpl;
      rewrite lookup_partial_alter_eq; unfold load; simpl;
      by rewrite lookup_insert_eq.
  - intros r w2 Hblock Hr Hctx.
    rewrite (with_guard_eval _ _ _ _ _ _ r w2 Hblock Hctx). by rewrite Hr.
Qed.

(** ** The values of [int_ctx] *)

Lemma assert_eval cond expr w :
  assert (exn:=exn) cond expr w =
    if cond then (Normal tt, w)
    else (Aborted ("Assertion `" +:+ expr +:+ "' failed."), w).
Proof. by destruct cond. Qed.

Lemma member_of_eval {A} (field : ctx_data → option A) ref w d v :
  load (contexts w) ref = Some d → field d = Some v →
  member_of (exn:=exn) field ref w = (Normal v, w).
Proof. intros Hd Hv. unfold member_of. by rewrite Hd; simpl; rewrite Hv. Qed.

Lemma lift_read {A} (m : M A) w r :
  m (contexts w) = (r, contexts w) → lift m w = (r, w).
Proof. intros Hm. unfold program.lift. rewrite Hm. by destruct w. Qed.

Lemma local_value_eval th w a v :
  local_top_ptr (contexts w) !! (th, int_ctx) = Some a →
  load (contexts w) a = Some (int_ctx_data v) →
  local_value th w = (Normal v, w) ∧ top_value th w = (Normal v, w).
Proof.
  intros Ha Hv. unfold program.local_value, program.top_value.
  rewrite !wbind_eval.
  rewrite (lift_read (get_local true th int_ctx) w (Normal a))
    by (by rewrite get_local_eval, Ha).
  rewrite (lift_read (get_top true th int_ctx) w (Normal a))
    by (by rewrite get_top_eval, Ha).
  by rewrite (member_of_eval _ _ _ _ v Hv).
Qed.

Lemma local_value_missing th w :
  local_top_ptr (contexts w) !! (th, int_ctx) = None →
  local_value th w
    = (Aborted (diagnostic "tried using inactive local context"), w).
Proof.
  intros Ha. unfold program.local_value. rewrite wbind_eval.
  by rewrite (lift_read (get_local true th int_ctx) w (Aborted _))
    by (by rewrite get_local_eval, Ha).
Qed.

Lemma global_value_eval th w a v :
  global_top_ptr (contexts w) !! int_ctx = Some a →
  load (contexts w) a = Some (int_ctx_data v) →
  global_value w = (Normal v, w) ∧
  (local_top_ptr (contexts w) !! (th, int_ctx) = None → top_value th w = (Normal v, w)).
Proof.
  intros Ha Hv. unfold program.global_value, program.top_value.
  rewrite !wbind_eval.
  rewrite (lift_read (get_global true int_ctx) w (Normal a))
    by (by rewrite get_global_eval, Ha).
  split; [by rewrite (member_of_eval _ _ _ _ v Hv)|].
  intros Hl.
  rewrite (lift_read (get_top true th int_ctx) w (Normal a))
    by (by rewrite get_top_eval, Hl, Ha).
  by rewrite (member_of_eval _ _ _ _ v Hv).
Qed.

Lemma f2_eval th w a :
  local_top_ptr (contexts w) !! (th, int_ctx) = Some a →
  load (contexts w) a = Some (int_ctx_data 15) →
  f2 th w = (Normal tt, w).
Proof.
  intros Ha Hv. destruct (local_value_eval th w a 15 Ha Hv) as [Hl Ht].
  unfold program.f2. rewrite wbind_eval, Hl, wbind_eval, assert_eval. simpl.
  by rewrite wbind_eval, Ht, assert_eval.
Qed.

Lemma asserts_local_then {A} th w a v n e1 e2 (rest : W A) :
  local_top_ptr (contexts w) !! (th, int_ctx) = Some a →
  load (contexts w) a = Some (int_ctx_data v) →
  (v1 ← local_value th; assert (v1 =? n)%Z e1;;
   v2 ← top_value th; assert (v2 =? n)%Z e2;; rest) w =
    if (v =? n)%Z then rest w
    else (Aborted ("Assertion `" +:+ e1 +:+ "' failed."), w).
Proof.
  intros Ha Hv. destruct (local_value_eval th w a v Ha Hv) as [Hl Ht].
  rewrite wbind_eval, Hl, wbind_eval, assert_eval.
  destruct (v =? n)%Z eqn:Hn; [|done].
  by rewrite wbind_eval, Ht, wbind_eval, assert_eval, Hn.
Qed.

Lemma asserts_local th w a v n e1 e2 :
  local_top_ptr (contexts w) !! (th, int_ctx) = Some a →
  load (contexts w) a = Some (int_ctx_data v) →
  (v1 ← local_value th; assert (v1 =? n)%Z e1;;
   v2 ← top_value th; assert (exn:=exn) (v2 =? n)%Z e2) w =
    if (v =? n)%Z then (Normal tt, w)
    else (Aborted ("Assertion `" +:+ e1 +:+ "' failed."), w).
Proof.
  intros Ha Hv. destruct (local_value_eval th w a v Ha Hv) as [Hl Ht].
  rewrite wbind_eval, Hl, wbind_eval, assert_eval.
  destruct (v =? n)%Z eqn:Hn; [|done].
  by rewrite wbind_eval, Ht, assert_eval, Hn.
Qed.

(** The world inside the block of a guard. *)
Lemma inside_guard TLocal th T x w :
  let this := place (objects (contexts w)) in
  let s1 := slot_write (ptr_ref TLocal th T) (Some this)
              (put_object this (Guard x (slot_read (ptr_ref TLocal th T) (contexts w)))
                 (contexts w)) in
  slot_read (ptr_ref TLocal th T) s1 = Some this ∧
  load s1 this = Some x ∧
  (∀ k, k ≠ ptr_ref TLocal th T → slot_read k s1 = slot_read k (contexts w)) ∧
  (∀ a, is_Some (objects (contexts w) !! a) → load s1 a = load (contexts w) a).
Proof.
  intros this s1. split; [apply slot_read_write|]. split; [|split].
  - unfold load, s1. rewrite objects_slot_write. simpl. by rewrite lookup_insert_eq.
  - intros k Hk. unfold s1. by rewrite slot_read_write_ne, slot_read_put_object.
  - intros a Ha. unfold load, s1. rewrite objects_slot_write. simpl.
    rewrite lookup_insert_ne; [done|]. intros Heq. subst a. unfold this in Ha.
    rewrite place_free in Ha. by destruct Ha.
Qed.

Lemma f1_eval th w a :
  local_top_ptr (contexts w) !! (th, int_ctx) = Some a →
  load (contexts w) a = Some (int_ctx_data 10) →
  f1 th w = (Normal tt, w).
Proof.
  intros Ha Hv. unfold program.f1.
  rewrite (asserts_local_then th w a 10 10 _ _ _ Ha Hv). cbn [Z.eqb Pos.eqb].
  rewrite wbind_eval.
  destruct (inside_guard true th int_ctx (int_ctx_data 15) w)
    as (Hslot & Hload & _ & _).
  set (s1 := slot_write _ _ _) in Hslot, Hload.
  rewrite (with_guard_eval true th int_ctx (int_ctx_data 15) _ w (Normal tt)
             (with_contexts s1 w)).
  - cbn [unwinds]. rewrite with_contexts_twice, with_contexts_same.
    by rewrite (asserts_local th w a 10 10 _ _ Ha Hv).
  - fold s1.
    rewrite (asserts_local_then th (with_contexts s1 w) _ 15 15 _ _ _ Hslot Hload).
    cbn [Z.eqb Pos.eqb].
    rewrite wbind_eval, (f2_eval th (with_contexts s1 w) _ Hslot Hload).
    by rewrite (asserts_local th (with_contexts s1 w) _ 15 15 _ _ Hslot Hload).
  - done.
Qed.

(** X9. [f1] needs the innermost local [int_ctx] of its thread to hold
    [10]: then every assertion of [f1] and of [f2] holds and [f1] returns
    with the world exactly as it was; with another value the first
    assertion fails, and with no local context at all the checked
    [get_local] aborts first. *)
Theorem f1_contract th w :
  (∀ a v,
     local_top_ptr (contexts w) !! (th, int_ctx) = Some a →
     load (contexts w) a = Some (int_ctx_data v) →
     f1 th w =
       if (v =? 10)%Z then (Normal tt, w)
       else (Aborted "Assertion `int_ctx::get_local().value == 10' failed.", w)) ∧
  (local_top_ptr (contexts w) !! (th, int_ctx) = None →
     f1 th w = (Aborted (diagnostic "tried using inactive local context"), w)).
Proof.
  split.
  - intros a v Ha Hv. destruct (v =? 10)%Z eqn:Hten.
    + apply Z.eqb_eq in Hten as ->. by eapply f1_eval.
    + unfold program.f1.
      by rewrite (asserts_local_then th w a v 10 _ _ _ Ha Hv), Hten.
  - intros Ha. unfold program.f1.
    by rewrite wbind_eval, local_value_missing.
Qed.

(** ** [metrics_guard] *)

Lemma int_result_eval (x : Z) w :
  (INT_MIN ≤ x ≤ INT_MAX)%Z →
  int_result (exn:=exn) INT_MIN INT_MAX x w = (Normal x, w).
Proof. intros Hx. unfold int_result. by rewrite bool_decide_eq_true_2. Qed.

Lemma metrics_guard_ctor_eval th this l w :
  (INT_MIN ≤ depth w + 1 ≤ INT_MAX)%Z →
  metrics_guard_ctor th this l w =
    (Normal tt,
     World (slot_write (LocalSlot th metrics_ctx) (Some this)
              (put_object this
                 (Guard (metrics_ctx_data l (steady_clock (now_calls w)))
                        (slot_read (LocalSlot th metrics_ctx) (contexts w)))
                 (contexts w)))
           (depth w + 1) (cout w) (S (now_calls w)) (allocations w)).
Proof.
  intros Hd. unfold program.metrics_guard_ctor, now, incr_depth.
  rewrite wbind_eval. cbn beta iota.
  rewrite wbind_eval, lift_guard_ctor.
  rewrite wbind_eval. unfold get_depth at 1. cbn beta iota.
  by rewrite wbind_eval, int_result_eval.
Qed.

Lemma metrics_guard_dtor_eval th this l t0 prev w :
  local_top_ptr (contexts w) !! (th, metrics_ctx) = Some this →
  objects (contexts w) !! this = Some (Guard (metrics_ctx_data l t0) prev) →
  (1 ≤ depth w)%Z → (depth w * 4 ≤ INT_MAX)%Z →
  metrics_guard_dtor th this w =
    (Normal tt,
     World (drop_object this (slot_write (LocalSlot th metrics_ctx) prev (contexts w)))
           (depth w - 1)
           (cout w +:+ took (indentation (depth w * 4)) l
                         (elapsed_us (steady_clock (now_calls w)) t0))
           (S (now_calls w)) (allocations w)).
Proof.
  intros Htop Hobj Hd1 Hd4. unfold program.metrics_guard_dtor.
  assert (Hload : load (contexts w) this = Some (metrics_ctx_data l t0)).
  { unfold load. by rewrite Hobj. }
  rewrite wbind_eval.
  rewrite (lift_read (get_top true th metrics_ctx) w (Normal this))
    by (by rewrite get_top_eval, Htop).
  rewrite wbind_eval. unfold now at 1. cbn beta iota.
  rewrite wbind_eval.
  rewrite (member_of_eval tp this (World _ _ _ _ _) _ t0 Hload eq_refl).
  rewrite wbind_eval. unfold get_depth at 1. cbn beta iota.
  rewrite wbind_eval, int_result_eval by (cbn [depth]; lia).
  rewrite wbind_eval. unfold dashes.
  rewrite bool_decide_eq_true_2 by (cbn [depth]; lia).
  unfold mret at 1, W_ret, wret. cbn [depth].
  rewrite wbind_eval.
  rewrite (member_of_eval label this (World _ _ _ _ _) _ l Hload eq_refl).
  rewrite wbind_eval. unfold print at 1, decr_depth. cbn beta iota.
  rewrite wbind_eval, wbind_eval. unfold get_depth at 1. cbn beta iota.
  rewrite wbind_eval, int_result_eval by (cbn [depth]; lia).
  unfold set_depth. cbn beta iota.
  by rewrite (lift_guard_dtor _ _ _ _ (Guard (metrics_ctx_data l t0) prev)).
Qed.

(** The world inside the block of a [metrics_guard]. *)
Lemma with_metrics_guard_eval {A} th l (block : W A) w r w2 :
  (0 ≤ depth w)%Z →
  ((depth w + 1) * 4 ≤ INT_MAX)%Z →
  block (World (slot_write (LocalSlot th metrics_ctx)
                  (Some (place (objects (contexts w))))
                  (put_object (place (objects (contexts w)))
                     (Guard (metrics_ctx_data l (steady_clock (now_calls w)))
                            (slot_read (LocalSlot th metrics_ctx) (contexts w)))
                     (contexts w)))
               (depth w + 1) (cout w) (S (now_calls w)) (allocations w))
    = (r, w2) →
  unwinds r = true →
  contexts w2 =
    slot_write (LocalSlot th metrics_ctx) (Some (place (objects (contexts w))))
      (put_object (place (objects (contexts w)))
         (Guard (metrics_ctx_data l (steady_clock (now_calls w)))
                (slot_read (LocalSlot th metrics_ctx) (contexts w)))
         (contexts w)) →
  depth w2 = (depth w + 1)%Z →
  with_metrics_guard th l block w =
    (r, World (contexts w) (depth w)
              (cout w2 +:+ took (indentation ((depth w + 1) * 4)) l
                             (elapsed_us (steady_clock (now_calls w2))
                                         (steady_clock (now_calls w))))
              (S (now_calls w2)) (allocations w2)).
Proof.
  intros Hd0 Hd4 Hblock Hr Hctx Hdepth.
  set (this := place (objects (contexts w))) in *.
  set (k := LocalSlot th metrics_ctx) in *.
  set (g := Guard (metrics_ctx_data l (steady_clock (now_calls w)))
                  (slot_read k (contexts w))) in *.
  unfold program.with_metrics_guard. fold this.
  rewrite wbind_eval, metrics_guard_ctor_eval by lia.
  unfold at_scope_exit. fold k g. rewrite Hblock.
  assert (Hdtor : metrics_guard_dtor th this w2 =
            (Normal tt,
             World (contexts w) (depth w)
                   (cout w2 +:+ took (indentation ((depth w + 1) * 4)) l
                      (elapsed_us (steady_clock (now_calls w2))
                                  (steady_clock (now_calls w))))
                   (S (now_calls w2)) (allocations w2))).
  { rewrite (metrics_guard_dtor_eval th this l (steady_clock (now_calls w))
               (slot_read k (contexts w))).
    - rewrite Hctx, Hdepth. fold k.
      rewrite (ctor_dtor_restores k this g) by apply place_free.
      by replace (depth w + 1 - 1)%Z with (depth w) by lia.
    - rewrite Hctx. apply (slot_read_write k).
    - rewrite Hctx, objects_slot_write. simpl. apply lookup_insert_eq.
    - lia.
    - lia. }
  destruct r as [a|e|d|]; try done; by rewrite wbind_eval, Hdtor.
Qed.

(** X10. The scope of a [metrics_guard]. Started with [depth] at least
    [0] and room for one more level, the constructor reads the clock,
    installs the record as innermost local [metrics_ctx] and raises
    [depth] by one. When the block has restored slots, guard objects and
    [depth] and returns or throws, the destructor finds its own record
    through [get_top] and writes one line after the output of the block:
    four dashes for each level of [depth], the label of this guard and the
    microseconds between its two readings of the clock; then [depth],
    slots and guard objects are as before the scope. *)
Theorem metrics_guard_scope {A} th l (block : W A) w :
  (0 ≤ depth w)%Z →
  ((depth w + 1) * 4 ≤ INT_MAX)%Z →
  ∃ w1,
    metrics_guard_ctor th (place (objects (contexts w))) l w = (Normal tt, w1) ∧
    depth w1 = (depth w + 1)%Z ∧
    cout w1 = cout w ∧ now_calls w1 = S (now_calls w) ∧
    allocations w1 = allocations w ∧
    observe (exn:=exn) (get_top true th metrics_ctx) (contexts w1)
      = Normal (place (objects (contexts w)),
                Some (metrics_ctx_data l (steady_clock (now_calls w)))) ∧
    ∀ r w2,
      block w1 = (r, w2) → unwinds r = true →
      contexts w2 = contexts w1 → depth w2 = depth w1 →
      with_metrics_guard th l block w =
        (r, World (contexts w) (depth w)
                  (cout w2 +:+ took (indentation ((depth w + 1) * 4)) l
                                 (elapsed_us (steady_clock (now_calls w2))
                                             (steady_clock (now_calls w))))
                  (S (now_calls w2)) (allocations w2)).
Proof.
  intros Hd0 Hd4.
  eexists. split; [apply metrics_guard_ctor_eval; lia|].
  repeat (split; [done|]). split.
  - unfold observe. rewrite get_top_eval. cbn [contexts].
    change (local_top_ptr ?s !! (th, metrics_ctx))
      with (slot_read (LocalSlot th metrics_ctx) s).
    rewrite slot_read_write. unfold load. rewrite objects_slot_write. simpl.
    by rewrite lookup_insert_eq.
  - intros r w2 Hblock Hr Hctx Hdepth.
    by apply with_metrics_guard_eval.
Qed.

(** ** Composing blocks that keep the slots and [depth] *)

Lemma behaves_ret : behaves 0 0 (λ _ _, "") (mret tt).
Proof.
  intros w _ _. unfold mret, W_ret, wret.
  rewrite string_app_empty, Nat.add_0_r. by destruct w.
Qed.

Lemma behaves_seq h1 h2 n1 n2 out1 out2 (b1 b2 : W unit) :
  behaves h1 n1 out1 b1 → behaves h2 n2 out2 b2 →
  behaves (h1 `max` h2) (n1 + n2)
          (λ d c, out1 d c +:+ out2 d (c + n1)) (b1;; b2).
Proof.
  intros Hb1 Hb2 w Hd0 Hd4.
  rewrite wbind_eval, Hb1 by lia. rewrite Hb2 by (cbn [depth]; lia).
  cbn [contexts depth cout now_calls allocations].
  by rewrite string_app_assoc, Nat.add_assoc.
Qed.

Lemma behaves_guard th l h n out (block : W unit) :
  behaves h n out block →
  behaves (h `max` 0 + 1) (n + 2)
          (λ d c, out (d + 1)%Z (S c)
                  +:+ took (indentation ((d + 1) * 4)) l
                        (elapsed_us (steady_clock (S c + n)) (steady_clock c)))
          (with_metrics_guard th l block).
Proof.
  intros Hb w Hd0 Hd4.
  erewrite with_metrics_guard_eval;
    [| lia | lia | apply Hb; cbn [depth]; lia | done | done | done].
  cbn [contexts depth cout now_calls allocations].
  rewrite string_app_assoc. do 2 f_equal. lia.
Qed.

Lemma line_eq d z c l n1 n2 (from to : nat) (level : Z) :
  z = ((d + level) * 4)%Z → n1 = c + to → n2 = c + from →
  took (indentation z) l (elapsed_us (steady_clock n1) (steady_clock n2))
    = line d c level l from to.
Proof. by intros -> -> ->. Qed.

Lemma string_app_eq (a a' b b' : string) : a = a' → b = b' → a +:+ b = a' +:+ b'.
Proof. by intros -> ->. Qed.

Lemma client_eval th w :
  (0 ≤ depth w)%Z →
  ((depth w + 3) * 4 ≤ INT_MAX)%Z →
  client th w =
    (Normal tt,
     World (contexts w) (depth w)
           (cout w
            +:+ line (depth w) (now_calls w) 2 "step0" 1 2
            +:+ line (depth w) (now_calls w) 3 "step1a" 4 5
            +:+ line (depth w) (now_calls w) 3 "step1b" 6 7
            +:+ line (depth w) (now_calls w) 2 "step1" 3 8
            +:+ line (depth w) (now_calls w) 2 "step2" 9 10
            +:+ line (depth w) (now_calls w) 1 "client" 0 11)
           (now_calls w + 12) (allocations w)).
Proof.
  intros Hd0 Hd4.
  pose proof (behaves_guard th "step0" _ _ _ _ behaves_ret) as H0.
  pose proof (behaves_guard th "step1a" _ _ _ _ behaves_ret) as H1a.
  pose proof (behaves_guard th "step1b" _ _ _ _ behaves_ret) as H1b.
  pose proof (behaves_guard th "step2" _ _ _ _ behaves_ret) as H2.
  pose proof (behaves_seq _ _ _ _ _ _ _ _ H1a H1b) as Hstep1.
  pose proof (behaves_guard th "step1" _ _ _ _ Hstep1) as H1.
  pose proof (behaves_seq _ _ _ _ _ _ _ _ H1 H2) as H12.
  pose proof (behaves_seq _ _ _ _ _ _ _ _ H0 H12) as H012.
  pose proof (behaves_guard th "client" _ _ _ _ H012) as Hclient.
  etransitivity; [apply (Hclient w); lia|].
  f_equal. f_equal.
  change ("" +:+ ?x) with x.
  rewrite !string_app_assoc.
  repeat first [ apply line_eq; lia
               | apply string_app_eq; [try done|] ].
Qed.

(** X11. [client] and [simulator::step1]. Started with [depth] at least
    [0] and room for three more levels, [client] returns normally with
    slots, guard objects and [depth] as before, after twelve readings of
    the clock, and has written six lines: each guard's line when its scope
    ends, so [step0], [step1a], [step1b], [step1], [step2], [client],
    indented by their nesting (levels 2, 3, 3, 2, 2, 1) and timed from the
    reading at its construction to the reading at its destruction.
    [step1] alone, with room for one level, writes the lines of [step1a]
    and [step1b] at level 1 after four readings. *)
Theorem client_output th w :
  (0 ≤ depth w)%Z →
  (((depth w + 3) * 4 ≤ INT_MAX)%Z →
   client th w =
     (Normal tt,
      World (contexts w) (depth w)
            (cout w
             +:+ line (depth w) (now_calls w) 2 "step0" 1 2
             +:+ line (depth w) (now_calls w) 3 "step1a" 4 5
             +:+ line (depth w) (now_calls w) 3 "step1b" 6 7
             +:+ line (depth w) (now_calls w) 2 "step1" 3 8
             +:+ line (depth w) (now_calls w) 2 "step2" 9 10
             +:+ line (depth w) (now_calls w) 1 "client" 0 11)
            (now_calls w + 12) (allocations w))) ∧
  (((depth w + 1) * 4 ≤ INT_MAX)%Z →
   step1 th w =
     (Normal tt,
      World (contexts w) (depth w)
            (cout w
             +:+ line (depth w) (now_calls w) 1 "step1a" 0 1
             +:+ line (depth w) (now_calls w) 1 "step1b" 2 3)
            (now_calls w + 4) (allocations w))).
Proof.
  intros Hd0. split; intros Hd4; [by apply client_eval|].
  pose proof (behaves_guard th "step1a" _ _ _ _ behaves_ret) as H1a.
  pose proof (behaves_guard th "step1b" _ _ _ _ behaves_ret) as H1b.
  pose proof (behaves_seq _ _ _ _ _ _ _ _ H1a H1b) as Hstep1.
  etransitivity; [apply (Hstep1 w); lia|].
  f_equal. f_equal.
  change ("" +:+ ?x) with x.
  repeat first [ apply line_eq; lia
               | apply string_app_eq; [try done|] ].
Qed.

(** ** [fpa1] and [fpa0] *)

Lemma fpa1_eval th w top mr :
  get_top (exn:=exn) true th pmr_context (contexts w) = (Normal top, contexts w) →
  load (contexts w) top = Some (pmr_context_data mr) →
  fpa1 th w =
    if allocates (allocations w) mr
    then (Normal tt,
          World (contexts w) (depth w)
                (cout w +:+ using_resource mr +:+ "012345" +:+ newline)
                (now_calls w) (S (allocations w)))
    else (Throws bad_alloc,
          World (contexts w) (depth w) (cout w +:+ using_resource mr)
                (now_calls w) (S (allocations w))).
Proof.
  intros Htop Hmr. unfold program.fpa1.
  rewrite wbind_eval, (lift_read _ w (Normal top)) by done.
  rewrite wbind_eval, (member_of_eval _mr top w _ mr Hmr eq_refl).
  rewrite wbind_eval. unfold print at 1. cbn beta iota.
  rewrite wbind_eval. unfold pmr_vector. rewrite wbind_eval.
  unfold allocate. cbn [contexts depth cout now_calls allocations].
  destruct (allocates (allocations w) mr); [|done].
  unfold mret at 1, W_ret, wret. cbn beta iota.
  rewrite wbind_eval. cbn [for_each].
  unfold mret, W_ret, wret, mbind, W_bind, wbind, print. cbn beta iota.
  cbn [contexts depth cout now_calls allocations].
  do 2 f_equal. by rewrite !string_app_assoc.
Qed.

Lemma fpa0_eval th mbr w mr1 :
  (local_top_ptr (contexts w) !! (th, pmr_context) = None
     ∧ mr1 = new_delete_resource) ∨
  (∃ a, local_top_ptr (contexts w) !! (th, pmr_context) = Some a
     ∧ load (contexts w) a = Some (pmr_context_data mr1)) →
  fpa0 th mbr w =
    if allocates (allocations w) mr1 then
      if allocates (S (allocations w)) mbr then
        (Normal tt,
         World (contexts w) (depth w)
               (cout w +:+ using_resource mr1 +:+ "012345" +:+ newline
                       +:+ using_resource mbr +:+ "012345" +:+ newline)
               (now_calls w) (S (S (allocations w))))
      else
        (Throws bad_alloc,
         World (contexts w) (depth w)
               (cout w +:+ using_resource mr1 +:+ "012345" +:+ newline +:+ using_resource mbr)
               (now_calls w) (S (S (allocations w))))
    else
      (Throws bad_alloc,
       World (contexts w) (depth w) (cout w +:+ using_resource mr1)
             (now_calls w) (S (allocations w))).
Proof.
  intros Hmr1. unfold program.fpa0.
  destruct (inside_guard false th pmr_context (pmr_context_data new_delete_resource) w)
    as (Hg1 & Hload1 & Hother1 & Hlive1).
  set (s1 := slot_write _ _ _) in Hg1, Hload1, Hother1, Hlive1.
  set (w1 := with_contexts s1 w).
  (* the first call *)
  assert (Hfirst : ∃ top, get_top (exn:=exn) true th pmr_context s1 = (Normal top, s1)
                          ∧ load s1 top = Some (pmr_context_data mr1)).
  { rewrite get_top_eval.
    change (local_top_ptr s1 !! (th, pmr_context))
      with (slot_read (LocalSlot th pmr_context) s1).
    change (global_top_ptr s1 !! pmr_context)
      with (slot_read (GlobalSlot pmr_context) s1).
    rewrite (Hother1 (LocalSlot th pmr_context)) by done.
    destruct Hmr1 as [[Hnone ->]|(a & Ha & Hla)]; simpl slot_read.
    - rewrite Hnone. simpl in Hg1. rewrite Hg1. eauto.
    - rewrite Ha. exists a. split; [done|]. rewrite Hlive1; [done|].
      unfold load in Hla. destruct (objects (contexts w) !! a); [eauto | done]. }
  destruct Hfirst as (top1 & Htop1 & Hltop1).
  pose proof (fpa1_eval th w1 top1 mr1 Htop1 Hltop1) as Hcall1.
  cbn [contexts depth cout now_calls allocations w1 with_contexts] in Hcall1.
  destruct (allocates (allocations w) mr1) eqn:Halloc1.
  2:{ erewrite with_guard_eval; [|by rewrite wbind_eval; fold s1 w1; rewrite Hcall1 | done].
      done. }
  (* the second call, inside the local guard *)
  set (w1' := World s1 (depth w) (cout w +:+ using_resource mr1 +:+ "012345" +:+ newline)
                    (now_calls w) (S (allocations w))) in Hcall1.
  destruct (inside_guard true th pmr_context (pmr_context_data mbr) w1')
    as (Hg2 & Hload2 & _ & _).
  cbn [contexts w1'] in Hg2, Hload2.
  set (s2 := slot_write _ _ _) in Hg2, Hload2.
  assert (Htop2 : get_top (exn:=exn) true th pmr_context s2
                  = (Normal (place (objects s1)), s2)).
  { rewrite get_top_eval.
    change (local_top_ptr s2 !! (th, pmr_context))
      with (slot_read (ptr_ref true th pmr_context) s2).
    by rewrite Hg2. }
  pose proof (fpa1_eval th (with_contexts s2 w1') _ mbr Htop2 Hload2) as Hcall2.
  cbn [contexts depth cout now_calls allocations w1' with_contexts] in Hcall2.
  assert (Hinner : with_guard true th pmr_context (pmr_context_data mbr) (fpa1 th) w1' =
            if allocates (S (allocations w)) mbr
            then (Normal tt,
                  World s1 (depth w)
                        ((cout w +:+ using_resource mr1 +:+ "012345" +:+ newline)
                           +:+ using_resource mbr +:+ "012345" +:+ newline)
                        (now_calls w) (S (S (allocations w))))
            else (Throws bad_alloc,
                  World s1 (depth w)
                        ((cout w +:+ using_resource mr1 +:+ "012345" +:+ newline) +:+ using_resource mbr)
                        (now_calls w) (S (S (allocations w))))).
  { destruct (allocates (S (allocations w)) mbr);
      (erewrite with_guard_eval; [|exact Hcall2 | done]); done. }
  destruct (allocates (S (allocations w)) mbr);
    (erewrite with_guard_eval;
       [|rewrite wbind_eval; fold s1 w1; rewrite Hcall1; exact Hinner | done]);
    cbn [unwinds with_contexts contexts depth cout now_calls allocations];
    by rewrite !string_app_assoc.
Qed.

(** X12. [fpa0] on a thread [th]. The first call of [fpa1] allocates from
    the resource of the innermost local [pmr_context] of [th] if the
    caller has one, and from [new_delete_resource()] of the global guard
    of [fpa0] otherwise; the second call allocates from [mbr]. When both
    allocations succeed four lines are written; when one throws
    [std::bad_alloc] the exception leaves [fpa0] after the lines written
    so far. On each of these ways out the slots and guard objects are as
    before the call. [fpa1] called with no [pmr_context] at all, local or
    global, aborts with the diagnostic of the checked [get_top]. *)
Theorem fpa0_output th mbr w :
  (∀ mr1,
     (local_top_ptr (contexts w) !! (th, pmr_context) = None
        ∧ mr1 = new_delete_resource) ∨
     (∃ a, local_top_ptr (contexts w) !! (th, pmr_context) = Some a
        ∧ load (contexts w) a = Some (pmr_context_data mr1)) →
     fpa0 th mbr w =
       if allocates (allocations w) mr1 then
         if allocates (S (allocations w)) mbr then
           (Normal tt,
            World (contexts w) (depth w)
                  (cout w +:+ using_resource mr1 +:+ "012345" +:+ newline
                          +:+ using_resource mbr +:+ "012345" +:+ newline)
                  (now_calls w) (S (S (allocations w))))
         else
           (Throws bad_alloc,
            World (contexts w) (depth w)
                  (cout w +:+ using_resource mr1 +:+ "012345" +:+ newline
                          +:+ using_resource mbr)
                  (now_calls w) (S (S (allocations w))))
       else
         (Throws bad_alloc,
          World (contexts w) (depth w) (cout w +:+ using_resource mr1)
                (now_calls w) (S (allocations w)))) ∧
  (local_top_ptr (contexts w) !! (th, pmr_context) = None →
   global_top_ptr (contexts w) !! pmr_context = None →
   fpa1 th w = (Aborted (diagnostic "no available context"), w)).
Proof.
  split.
  - intros mr1 Hmr1. by apply fpa0_eval.
  - intros Hl Hg. unfold program.fpa1. rewrite wbind_eval.
    by rewrite (lift_read (get_top true th pmr_context) w (Aborted _))
      by (by rewrite get_top_eval, Hl, Hg).
Qed.

(** ** [main] *)

Lemma asserts_global_then {A} th w a v n e1 e2 (rest : W A) :
  global_top_ptr (contexts w) !! int_ctx = Some a →
  local_top_ptr (contexts w) !! (th, int_ctx) = None →
  load (contexts w) a = Some (int_ctx_data v) →
  (v1 ← global_value; assert (v1 =? n)%Z e1;;
   v2 ← top_value th; assert (v2 =? n)%Z e2;; rest) w =
    if (v =? n)%Z then rest w
    else (Aborted ("Assertion `" +:+ e1 +:+ "' failed."), w).
Proof.
  intros Ha Hl Hv. destruct (global_value_eval th w a v Ha Hv) as [Hg Ht].
  rewrite wbind_eval, Hg, wbind_eval, assert_eval.
  destruct (v =? n)%Z eqn:Hn; [|done].
  by rewrite wbind_eval, (Ht Hl), wbind_eval, assert_eval, Hn.
Qed.

Lemma asserts_global th w a v n e1 e2 :
  global_top_ptr (contexts w) !! int_ctx = Some a →
  local_top_ptr (contexts w) !! (th, int_ctx) = None →
  load (contexts w) a = Some (int_ctx_data v) →
  (v1 ← global_value; assert (v1 =? n)%Z e1;;
   v2 ← top_value th; assert (exn:=exn) (v2 =? n)%Z e2) w =
    if (v =? n)%Z then (Normal tt, w)
    else (Aborted ("Assertion `" +:+ e1 +:+ "' failed."), w).
Proof.
  intros Ha Hl Hv. destruct (global_value_eval th w a v Ha Hv) as [Hg Ht].
  rewrite wbind_eval, Hg, wbind_eval, assert_eval.
  destruct (v =? n)%Z eqn:Hn; [|done].
  by rewrite wbind_eval, (Ht Hl), assert_eval, Hn.
Qed.

Lemma f0_eval th w a :
  global_top_ptr (contexts w) !! int_ctx = Some a →
  local_top_ptr (contexts w) !! (th, int_ctx) = None →
  load (contexts w) a = Some (int_ctx_data 5) →
  f0 th w = (Normal tt, w).
Proof.
  intros Ha Hl Hv. unfold program.f0.
  by rewrite (asserts_global th w a 5 5 _ _ Ha Hl Hv).
Qed.

(** The block of [lg(10)] in [main]. *)
Lemma main_local_block th w a :
  local_top_ptr (contexts w) !! (th, int_ctx) = Some a →
  load (contexts w) a = Some (int_ctx_data 10) →
  (v ← local_value th; assert (v =? 10)%Z "int_ctx::get_local().value == 10";;
   v ← top_value th; assert (v =? 10)%Z "int_ctx::get_top().value == 10";;
   f1 th;;
   v ← local_value th; assert (v =? 10)%Z "int_ctx::get_local().value == 10";;
   v ← top_value th; assert (v =? 10)%Z "int_ctx::get_top().value == 10") w
  = (Normal tt, w).
Proof.
  intros Ha Hv.
  rewrite (asserts_local_then th w a 10 10 _ _ _ Ha Hv). cbn [Z.eqb Pos.eqb].
  rewrite wbind_eval, (f1_eval th w a Ha Hv).
  by rewrite (asserts_local th w a 10 10 _ _ Ha Hv).
Qed.

(** The block of [gg(5)] in [main]. *)
Lemma main_global_block th w a :
  global_top_ptr (contexts w) !! int_ctx = Some a →
  local_top_ptr (contexts w) !! (th, int_ctx) = None →
  load (contexts w) a = Some (int_ctx_data 5) →
  (v ← global_value; assert (v =? 5)%Z "int_ctx::get_global().value == 5";;
   v ← top_value th; assert (v =? 5)%Z "int_ctx::get_top().value == 5";;
   f0 th;;
   with_guard true th int_ctx (int_ctx_data 10)
     (v ← local_value th; assert (v =? 10)%Z "int_ctx::get_local().value == 10";;
      v ← top_value th; assert (v =? 10)%Z "int_ctx::get_top().value == 10";;
      f1 th;;
      v ← local_value th; assert (v =? 10)%Z "int_ctx::get_local().value == 10";;
      v ← top_value th; assert (v =? 10)%Z "int_ctx::get_top().value == 10");;
   v ← global_value; assert (v =? 5)%Z "int_ctx::get_global().value == 5";;
   v ← top_value th; assert (v =? 5)%Z "int_ctx::get_top().value == 5") w
  = (Normal tt, w).
Proof.
  intros Ha Hl Hv.
  rewrite (asserts_global_then th w a 5 5 _ _ _ Ha Hl Hv). cbn [Z.eqb Pos.eqb].
  rewrite wbind_eval, (f0_eval th w a Ha Hl Hv). rewrite wbind_eval.
  destruct (inside_guard true th int_ctx (int_ctx_data 10) w)
    as (Hslot & Hload & _ & _).
  set (s1 := slot_write _ _ _) in Hslot, Hload.
  rewrite (with_guard_eval true th int_ctx (int_ctx_data 10) _ w (Normal tt)
             (with_contexts s1 w)).
  - cbn [unwinds]. rewrite with_contexts_twice, with_contexts_same.
    by rewrite (asserts_global th w a 5 5 _ _ Ha Hl Hv).
  - fold s1. by apply (main_local_block th (with_contexts s1 w) _ Hslot Hload).
  - done.
Qed.

(** X13. [main], called on a thread that has no local [int_ctx] and no
    local [pmr_context] of its own, with [depth] at least [0] and room for
    three more levels, and with both allocations of [fpa0] succeeding:
    none of its assertions fails, nor those of [f0], [f1] and [f2]; it
    returns [0] after the six lines of [client] and the four lines of
    [fpa0], and every slot and guard object, and [depth], are as before
    the call. *)
Theorem main_returns th mbr w :
  local_top_ptr (contexts w) !! (th, int_ctx) = None →
  local_top_ptr (contexts w) !! (th, pmr_context) = None →
  (0 ≤ depth w)%Z →
  ((depth w + 3) * 4 ≤ INT_MAX)%Z →
  allocates (allocations w) new_delete_resource = true →
  allocates (S (allocations w)) mbr = true →
  main th mbr w =
    (Normal 0%Z,
     World (contexts w) (depth w)
           (cout w
            +:+ line (depth w) (now_calls w) 2 "step0" 1 2
            +:+ line (depth w) (now_calls w) 3 "step1a" 4 5
            +:+ line (depth w) (now_calls w) 3 "step1b" 6 7
            +:+ line (depth w) (now_calls w) 2 "step1" 3 8
            +:+ line (depth w) (now_calls w) 2 "step2" 9 10
            +:+ line (depth w) (now_calls w) 1 "client" 0 11
            +:+ using_resource new_delete_resource +:+ "012345" +:+ newline
            +:+ using_resource mbr +:+ "012345" +:+ newline)
           (now_calls w + 12) (S (S (allocations w)))).
Proof.
  intros Hlint Hlpmr Hd0 Hd4 Halloc1 Halloc2. unfold program.main.
  (* gg(1) *)
  destruct (inside_guard false th int_ctx (int_ctx_data 1) w)
    as (Hg1 & Hload1 & Hother1 & _).
  set (s1 := slot_write _ _ _) in Hg1, Hload1, Hother1.
  set (w1 := with_contexts s1 w).
  assert (Hl1 : local_top_ptr s1 !! (th, int_ctx) = None).
  { rewrite <-Hlint. by apply (Hother1 (LocalSlot th int_ctx)). }
  assert (Hp1 : local_top_ptr s1 !! (th, pmr_context) = None).
  { rewrite <-Hlpmr. by apply (Hother1 (LocalSlot th pmr_context)). }
  (* gg(5) *)
  destruct (inside_guard false th int_ctx (int_ctx_data 5) w1)
    as (Hg2 & Hload2 & Hother2 & _).
  cbn [contexts w1 with_contexts] in Hg2, Hload2, Hother2.
  set (s2 := slot_write _ _ _) in Hg2, Hload2, Hother2.
  assert (Hl2 : local_top_ptr s2 !! (th, int_ctx) = None).
  { rewrite <-Hl1. by apply (Hother2 (LocalSlot th int_ctx)). }
  assert (Hinner : with_guard false th int_ctx (int_ctx_data 5)
            (v ← global_value; assert (v =? 5)%Z "int_ctx::get_global().value == 5";;
             v ← top_value th; assert (v =? 5)%Z "int_ctx::get_top().value == 5";;
             f0 th;;
             with_guard true th int_ctx (int_ctx_data 10)
               (v ← local_value th; assert (v =? 10)%Z "int_ctx::get_local().value == 10";;
                v ← top_value th; assert (v =? 10)%Z "int_ctx::get_top().value == 10";;
                f1 th;;
                v ← local_value th; assert (v =? 10)%Z "int_ctx::get_local().value == 10";;
                v ← top_value th; assert (v =? 10)%Z "int_ctx::get_top().value == 10");;
             v ← global_value; assert (v =? 5)%Z "int_ctx::get_global().value == 5";;
             v ← top_value th; assert (v =? 5)%Z "int_ctx::get_top().value == 5") w1
          = (Normal tt, w1)).
  { rewrite (with_guard_eval false th int_ctx (int_ctx_data 5) _ w1 (Normal tt)
               (with_contexts s2 w1)).
    - done.
    - by apply (main_global_block th (with_contexts s2 w1) _ Hg2 Hl2 Hload2).
    - done. }
  (* the block of gg(1) *)
  set (out := (cout w
            +:+ line (depth w) (now_calls w) 2 "step0" 1 2
            +:+ line (depth w) (now_calls w) 3 "step1a" 4 5
            +:+ line (depth w) (now_calls w) 3 "step1b" 6 7
            +:+ line (depth w) (now_calls w) 2 "step1" 3 8
            +:+ line (depth w) (now_calls w) 2 "step2" 9 10
            +:+ line (depth w) (now_calls w) 1 "client" 0 11
            +:+ using_resource new_delete_resource +:+ "012345" +:+ newline
            +:+ using_resource mbr +:+ "012345" +:+ newline)).
  rewrite (with_guard_eval false th int_ctx (int_ctx_data 1) _ w (Normal 0%Z)
             (World s1 (depth w) out (now_calls w + 12) (S (S (allocations w))))).
  - done.
  - fold s1 w1.
    rewrite (asserts_global_then th w1 _ 1 1 _ _ _ Hg1 Hl1 Hload1).
    cbn [Z.eqb Pos.eqb].
    rewrite wbind_eval, Hinner.
    rewrite (asserts_global_then th w1 _ 1 1 _ _ _ Hg1 Hl1 Hload1).
    cbn [Z.eqb Pos.eqb].
    rewrite wbind_eval, (client_eval th w1) by done.
    rewrite wbind_eval.
    rewrite (fpa0_eval th mbr _ new_delete_resource) by (left; done).
    cbn [contexts depth cout now_calls allocations w1 with_contexts].
    rewrite Halloc1, Halloc2. unfold mret, W_ret, wret.
    do 2 f_equal. unfold out. by rewrite !string_app_assoc.
  - done.
Qed.

End program_properties.

(** * The program on one platform

    The theorems on the program of [tlcontext.cpp], used on the platform
    above: [main] runs on thread [0] from the start of the program. *)

Section program_demonstration.

Import program platform.

Local Abbreviation world := (@world nat _ _ Z string).
Local Abbreviation ctx_data := (@ctx_data Z string).
Local Abbreviation int_ctx_data := (@int_ctx_data Z string).
Local Abbreviation metrics_ctx_data := (@metrics_ctx_data Z string).
Local Abbreviation pmr_context_data := (@pmr_context_data Z string).
Local Abbreviation construct := (@construct Z string string).
Local Abbreviation lift := (lift (thread:=nat) (time:=Z) (resource:=string) (exn:=string)).
Local Abbreviation with_guard := (with_guard (thread:=nat) (exn:=string) place).
Local Abbreviation f1 := (f1 (thread:=nat) (exn:=string) place).
Local Abbreviation metrics_guard_ctor :=
  (metrics_guard_ctor (thread:=nat) (resource:=string) (exn:=string)
     steady_clock INT_MIN INT_MAX).
Local Abbreviation with_metrics_guard :=
  (with_metrics_guard (thread:=nat) (resource:=string) (exn:=string)
     steady_clock elapsed_us INT_MIN INT_MAX place).
Local Abbreviation step0 := (step0 (thread:=nat) (time:=Z) (resource:=string) (exn:=string)).
Local Abbreviation step1 :=
  (step1 (thread:=nat) (resource:=string) (exn:=string)
     steady_clock elapsed_us INT_MIN INT_MAX place).
Local Abbreviation client :=
  (client (thread:=nat) (resource:=string) (exn:=string)
     steady_clock elapsed_us INT_MIN INT_MAX place).
Local Abbreviation line := (line steady_clock elapsed_us).
Local Abbreviation using_resource := (using_resource show_pointer).
Local Abbreviation fpa1 := (fpa1 (thread:=nat) (time:=Z) show_pointer allocates bad_alloc).
Local Abbreviation fpa0 :=
  (fpa0 (thread:=nat) (time:=Z) place show_pointer allocates bad_alloc
     new_delete_resource).
Local Abbreviation main :=
  (main (thread:=nat) steady_clock elapsed_us INT_MIN INT_MAX place show_pointer
     allocates bad_alloc new_delete_resource).

Lemma place_is_free (objs : gmap addr (@guard ctx_data)) : objs !! place objs = None.
Proof. apply (not_elem_of_dom (D:=gset addr)). unfold place. apply is_fresh. Qed.

(** What [main] writes on this platform. *)
Example main_on_platform :
  main 0 mbr start =
    (Normal 0%Z,
     World initial 0
           ("-------- step0 took 7us" +:+ newline +:+
            "------------ step1a took 7us" +:+ newline +:+
            "------------ step1b took 7us" +:+ newline +:+
            "-------- step1 took 35us" +:+ newline +:+
            "-------- step2 took 7us" +:+ newline +:+
            "---- client took 77us" +:+ newline +:+
            "using memory resource 0x5581" +:+ newline +:+
            "012345" +:+ newline +:+
            "using memory resource 0x7ffd" +:+ newline +:+
            "012345" +:+ newline)
           12 2).
Proof. vm_compute. reflexivity. Qed.

Lemma guard_scope_restores_start :
  (∀ objs, objs !! place objs = None) ∧
  ∃ w1,
    lift (guard_ctor construct true 0 int_ctx (place (objects (contexts start)))
            (int_ctx_data 10)) start
      = (Normal tt, w1) ∧
    observe (exn:=string) (get_own true true 0 int_ctx) (contexts w1)
      = Normal (place (objects (contexts start)), Some (int_ctx_data 10)) ∧
    ∀ r w2, f1 0 w1 = (r, w2) → unwinds r = true → contexts w2 = contexts w1 →
      with_guard true 0 int_ctx (int_ctx_data 10) (f1 0) start
        = (r, with_contexts (contexts start) w2).
Proof.
  split; [exact place_is_free|].
  apply (guard_scope_restores place place_is_free true 0 int_ctx (int_ctx_data 10)
           (f1 0) start).
Defined.

Lemma f1_contract_start :
  (∀ objs, objs !! place objs = None) ∧
  (∀ a v,
     local_top_ptr (contexts start) !! (0, int_ctx) = Some a →
     load (contexts start) a = Some (int_ctx_data v) →
     f1 0 start =
       if (v =? 10)%Z then (Normal tt, start)
       else (Aborted "Assertion `int_ctx::get_local().value == 10' failed.", start)) ∧
  (local_top_ptr (contexts start) !! (0, int_ctx) = None →
     f1 0 start = (Aborted (diagnostic "tried using inactive local context"), start)).
Proof.
  split; [exact place_is_free|].
  apply (f1_contract place place_is_free 0 start).
Defined.

Lemma metrics_guard_scope_start :
  ((∀ objs, objs !! place objs = None) ∧ (INT_MIN ≤ 0)%Z ∧
   (0 ≤ depth start)%Z ∧ ((depth start + 1) * 4 ≤ INT_MAX)%Z) ∧
  ∃ w1,
    metrics_guard_ctor 0 (place (objects (contexts start))) "step0" start
      = (Normal tt, w1) ∧
    depth w1 = (depth start + 1)%Z ∧
    cout w1 = cout start ∧ now_calls w1 = S (now_calls start) ∧
    allocations w1 = allocations start ∧
    observe (exn:=string) (get_top true 0 metrics_ctx) (contexts w1)
      = Normal (place (objects (contexts start)),
                Some (metrics_ctx_data "step0" (steady_clock (now_calls start)))) ∧
    ∀ r w2,
      step0 w1 = (r, w2) → unwinds r = true →
      contexts w2 = contexts w1 → depth w2 = depth w1 →
      with_metrics_guard 0 "step0" step0 start =
        (r, World (contexts start) (depth start)
                  (cout w2 +:+ took (indentation ((depth start + 1) * 4)) "step0"
                                 (elapsed_us (steady_clock (now_calls w2))
                                             (steady_clock (now_calls start))))
                  (S (now_calls w2)) (allocations w2)).
Proof.
  split; [split; [exact place_is_free | vm_compute; repeat split; discriminate]|].
  apply (metrics_guard_scope steady_clock elapsed_us INT_MIN INT_MAX place
           place_is_free);
    vm_compute; discriminate.
Defined.

Lemma client_output_start :
  ((∀ objs, objs !! place objs = None) ∧ (INT_MIN ≤ 0)%Z ∧ (0 ≤ depth start)%Z) ∧
  (((depth start + 3) * 4 ≤ INT_MAX)%Z →
   client 0 start =
     (Normal tt,
      World (contexts start) (depth start)
            (cout start
             +:+ line (depth start) (now_calls start) 2 "step0" 1 2
             +:+ line (depth start) (now_calls start) 3 "step1a" 4 5
             +:+ line (depth start) (now_calls start) 3 "step1b" 6 7
             +:+ line (depth start) (now_calls start) 2 "step1" 3 8
             +:+ line (depth start) (now_calls start) 2 "step2" 9 10
             +:+ line (depth start) (now_calls start) 1 "client" 0 11)
            (now_calls start + 12) (allocations start))) ∧
  (((depth start + 1) * 4 ≤ INT_MAX)%Z →
   step1 0 start =
     (Normal tt,
      World (contexts start) (depth start)
            (cout start
             +:+ line (depth start) (now_calls start) 1 "step1a" 0 1
             +:+ line (depth start) (now_calls start) 1 "step1b" 2 3)
            (now_calls start + 4) (allocations start))).
Proof.
  split; [split; [exact place_is_free | vm_compute; split; discriminate]|].
  apply (client_output steady_clock elapsed_us INT_MIN INT_MAX place place_is_free);
    vm_compute; discriminate.
Defined.

Lemma fpa0_output_start :
  (∀ objs, objs !! place objs = None) ∧
  (∀ mr1,
     (local_top_ptr (contexts start) !! (0, pmr_context) = None
        ∧ mr1 = new_delete_resource) ∨
     (∃ a, local_top_ptr (contexts start) !! (0, pmr_context) = Some a
        ∧ load (contexts start) a = Some (pmr_context_data mr1)) →
     fpa0 0 mbr start =
       if allocates (allocations start) mr1 then
         if allocates (S (allocations start)) mbr then
           (Normal tt,
            World (contexts start) (depth start)
                  (cout start +:+ using_resource mr1 +:+ "012345" +:+ newline
                              +:+ using_resource mbr +:+ "012345" +:+ newline)
                  (now_calls start) (S (S (allocations start))))
         else
           (Throws bad_alloc,
            World (contexts start) (depth start)
                  (cout start +:+ using_resource mr1 +:+ "012345" +:+ newline
                              +:+ using_resource mbr)
                  (now_calls start) (S (S (allocations start))))
       else
         (Throws bad_alloc,
          World (contexts start) (depth start) (cout start +:+ using_resource mr1)
                (now_calls start) (S (allocations start)))) ∧
  (local_top_ptr (contexts start) !! (0, pmr_context) = None →
   global_top_ptr (contexts start) !! pmr_context = None →
   fpa1 0 start = (Aborted (diagnostic "no available context"), start)).
Proof.
  split; [exact place_is_free|].
  apply (fpa0_output place show_pointer allocates bad_alloc new_delete_resource
           place_is_free 0 mbr start).
Defined.

Lemma main_returns_start :
  ((∀ objs, objs !! place objs = None) ∧ (INT_MIN ≤ 0)%Z ∧
   local_top_ptr (contexts start) !! (0, int_ctx) = None ∧
   local_top_ptr (contexts start) !! (0, pmr_context) = None ∧
   (0 ≤ depth start)%Z ∧ ((depth start + 3) * 4 ≤ INT_MAX)%Z ∧
   allocates (allocations start) new_delete_resource = true ∧
   allocates (S (allocations start)) mbr = true) ∧
  main 0 mbr start =
    (Normal 0%Z,
     World (contexts start) (depth start)
           (cout start
            +:+ line (depth start) (now_calls start) 2 "step0" 1 2
            +:+ line (depth start) (now_calls start) 3 "step1a" 4 5
            +:+ line (depth start) (now_calls start) 3 "step1b" 6 7
            +:+ line (depth start) (now_calls start) 2 "step1" 3 8
            +:+ line (depth start) (now_calls start) 2 "step2" 9 10
            +:+ line (depth start) (now_calls start) 1 "client" 0 11
            +:+ using_resource new_delete_resource +:+ "012345" +:+ newline
            +:+ using_resource mbr +:+ "012345" +:+ newline)
           (now_calls start + 12) (S (S (allocations start)))).
Proof.
  split.
  { split; [exact place_is_free|].
    repeat split; try reflexivity; vm_compute; discriminate. }
  apply (main_returns steady_clock elapsed_us INT_MIN INT_MAX place show_pointer
           allocates bad_alloc new_delete_resource place_is_free);
    try reflexivity; vm_compute; discriminate.
Defined.

End program_demonstration.
